(** * Minigrid-Maze: the maze generator of [minigrid/envs/maze.py]

    A shallow embedding of the class [Maze_Generator] (randomised Prim's
    algorithm on a boolean lattice), of the array, set and random-choice
    operations it relies on, and of the method [_gen_grid] of the
    environment [MazeEnv], which lays the generated lattice out on the
    arena, followed by the properties of the generator and of the layout.

    Conventions.
    - Python integers are [Z]; [//] is [Z.div] (floor division).
    - The [numpy] array [self.grid] is a list of rows, [grid[x][y]] reading
      row [x], column [y] with Python's index rule (a negative index counts
      from the end, anything else out of range raises [IndexError]).
    - A Python [set] of coordinate pairs is a [gset (Z * Z)]; [tuple(s)] is
      [elements s].  The order of [elements] need not be CPython's; every
      property below is stated for all random draws, and a draw selects the
      element by its position, so every element can be selected.
    - The ambient generator of module [random] is a sequence [draws] of
      naturals together with the number of draws consumed so far:
      [random.choice(seq)] is [seq[draws k mod len(seq)]].
    - A method is a computation in a state and exception monad over the
      [World]; the state survives an exception, as the object does.
    - The [while] loop takes fuel; running out of it is the outcome
      [OutOfFuel], which is neither a return nor an exception.
    - The world carries a history of what [__generate] did, one event for
      the carving of the origin and one per pass of the loop body.  It is
      written and never read by the code, and the properties that speak of
      pops, of calls of [__connect] and of the working set read it.
    - [_gen_grid] is a computation in a state and exception monad over the
      fields of the environment it reads or writes.  The base classes of
      MiniGrid are not part of [maze.py]: a call into them is taken to
      return and is recorded, with its arguments, in the order of the
      calls; [_gen_grid] uses the result of none.  A [for] loop over a
      [range] is a recursion over the list of its indices. *)

From stdpp Require Import gmap list relations sorting strings.

#[local] Open Scope Z_scope.
#[local] Set Warnings "-clear-no-such-hyp".

(** ** Coordinates *)

Abbreviation coord := (Z * Z)%type.

(** ** [numpy] arrays of booleans, two-dimensional *)

Abbreviation ndarray := (list (list bool)).

Inductive exn : Type := IndexError | ValueError.

Inductive res (A : Type) : Type :=
| Ret (a : A)
| Raise (e : exn)
| OutOfFuel.
Arguments Ret {A} a.
Arguments Raise {A} e.
Arguments OutOfFuel {A}.

(** [np.zeros((width, height), dtype=bool)]: a negative dimension raises
    [ValueError]. *)
Definition np_zeros (width height : Z) : res ndarray :=
  if (width <? 0) || (height <? 0) then Raise ValueError
  else Ret (replicate (Z.to_nat width) (replicate (Z.to_nat height) false)).

(** Python's index rule on an axis of length [n]. *)
Definition py_index (n : nat) (i : Z) : option nat :=
  if (0 <=? i) && (i <? Z.of_nat n) then Some (Z.to_nat i)
  else if (- Z.of_nat n <=? i) && (i <? 0) then Some (Z.to_nat (Z.of_nat n + i))
  else None.

(** [a[x][y]] *)
Definition getitem (a : ndarray) (x y : Z) : option bool :=
  i ← py_index (length a) x;
  row ← a !! i;
  j ← py_index (length row) y;
  row !! j.

(** [a[x][y] = v] *)
Definition setitem (a : ndarray) (x y : Z) (v : bool) : option ndarray :=
  i ← py_index (length a) x;
  row ← a !! i;
  j ← py_index (length row) y;
  Some (<[i := <[j := v]> row]> a).

(** [s.add(c)] on a set of coordinates *)
Definition set_add (c : coord) (s : gset coord) : gset coord := {[ c ]} ∪ s.

(** ** The object, the ambient random state, and the history of a run *)

Record Maze_Generator : Type := {
  _width : Z;
  _height : Z;
  grid : ndarray
}.

(** What [__generate] did, most recent first.  [Origin c fs s]: the cell
    [c] was carved and its frontier [fs] put into the working set, which
    then is [s] (lines 215-219).  [Iteration c ns n fs s]: one pass of the
    loop body (lines 221-229) popped [c], saw the neighbours [ns],
    connected [c] to [n] when [n] is [Some _] and did not call [__connect]
    when it is [None], and added the frontier [fs] to the working set,
    which then is [s].  The history is write-only: no operation reads
    it. *)
Inductive event : Type :=
| Origin (c : coord) (fs s : gset coord)
| Iteration (c : coord) (ns : gset coord) (n : option coord) (fs s : gset coord).

Record World : Type := {
  self : Maze_Generator;
  consumed : nat;
  history : list event
}.

(** ** The monad *)

Definition M (A : Type) : Type := World → res A * World.

Definition ret {A} (a : A) : M A := λ W, (Ret a, W).
Definition bind {A B} (m : M A) (f : A → M B) : M B := λ W,
  match m W with
  | (Ret a, W') => f a W'
  | (Raise e, W') => (Raise e, W')
  | (OutOfFuel, W') => (OutOfFuel, W')
  end.

Notation "'let*' x := m 'in' k" := (bind m (λ x, k))
  (at level 10, x pattern, m at level 100, k at level 200).
Notation "m ;; k" := (bind m (λ _, k))
  (at level 100, k at level 200, right associativity).

Definition get_self : M Maze_Generator := λ W, (Ret (self W), W).
Definition out_of_fuel {A} : M A := λ W, (OutOfFuel, W).
Definition record (e : event) : M unit := λ W,
  (Ret (), {| self := self W; consumed := consumed W; history := e :: history W |}).

(** [self.grid[x][y]] *)
Definition grid_get (x y : Z) : M bool := λ W,
  match getitem (grid (self W)) x y with
  | Some b => (Ret b, W)
  | None => (Raise IndexError, W)
  end.

(** [self.grid[x][y] = v] *)
Definition grid_set (x y : Z) (v : bool) : M unit := λ W,
  match setitem (grid (self W)) x y v with
  | Some g =>
      (Ret (), {| self := {| _width := _width (self W); _height := _height (self W); grid := g |};
                  consumed := consumed W; history := history W |})
  | None => (Raise IndexError, W)
  end.

(** [not m] *)
Definition not_ (m : M bool) : M bool := let* b := m in ret (negb b).

(** [c and m], evaluating [m] only when [c] holds. *)
Definition and_then (c : bool) (m : M bool) : M bool :=
  if c then m else ret false.

(** The world in which the constructor calls [__generate]: the object
    with its fields set, no draw consumed yet, nothing done yet. *)
Definition fresh (width height : Z) (g : ndarray) : World :=
  {| self := {| _width := width; _height := height; grid := g |};
     consumed := O; history := [] |}.

Section Generator.

(** The values the ambient random source returns from the call of the
    constructor on, in order. *)
Variable draws : nat → nat.

(** [random.choice(seq)]: [seq[randbelow(len(seq))]], [IndexError] on an
    empty sequence. *)
Definition random_choice {A} (seq : list A) : M A := λ W,
  match seq !! (draws (consumed W) `mod` length seq)%nat with
  | Some a => (Ret a, {| self := self W; consumed := S (consumed W); history := history W |})
  | None => (Raise IndexError, W)
  end.

(** ** The methods of [Maze_Generator] *)

(** Lines 138-158. *)
Definition __frontier (x y : Z) : M (gset coord) :=
  let* me := get_self in
  let f : gset coord := ∅ in
  if (0 <=? x) && (x <? _width me) && (0 <=? y) && (y <? _height me) then
    let* c := and_then (1 <? x) (not_ (grid_get (x - 2) y)) in
    let f := if c then set_add (x - 2, y) f else f in
    let* c := and_then (x + 2 <? _width me) (not_ (grid_get (x + 2) y)) in
    let f := if c then set_add (x + 2, y) f else f in
    let* c := and_then (1 <? y) (not_ (grid_get x (y - 2))) in
    let f := if c then set_add (x, y - 2) f else f in
    let* c := and_then (y + 2 <? _height me) (not_ (grid_get x (y + 2))) in
    let f := if c then set_add (x, y + 2) f else f in
    ret f
  else ret f.

(** Lines 160-180. *)
Definition __neighbours (x y : Z) : M (gset coord) :=
  let* me := get_self in
  let n : gset coord := ∅ in
  if (0 <=? x) && (x <? _width me) && (0 <=? y) && (y <? _height me) then
    let* c := and_then (1 <? x) (grid_get (x - 2) y) in
    let n := if c then set_add (x - 2, y) n else n in
    let* c := and_then (x + 2 <? _width me) (grid_get (x + 2) y) in
    let n := if c then set_add (x + 2, y) n else n in
    let* c := and_then (1 <? y) (grid_get x (y - 2)) in
    let n := if c then set_add (x, y - 2) n else n in
    let* c := and_then (y + 2 <? _height me) (grid_get x (y + 2)) in
    let n := if c then set_add (x, y + 2) n else n in
    ret n
  else ret n.

(** Lines 182-196. *)
Definition __connect (x1 y1 x2 y2 : Z) : M unit :=
  let x := (x1 + x2) `div` 2 in
  let y := (y1 + y2) `div` 2 in
  grid_set x1 y1 true ;;
  grid_set x y true.

(** Lines 214-219: carve the origin and start the working set. *)
Definition generate_init : M (gset coord) :=
  let s : gset coord := ∅ in
  let '(x, y) := (0, 0) in
  grid_set x y true ;;
  let* fs := __frontier x y in
  let s := fs ∪ s in
  record (Origin (x, y) fs s) ;;
  ret s.

(** Lines 221-229: one pass of the loop body on the working set [s].
    The popped cell was chosen from [s], so [s.remove] finds it. *)
Definition generate_body (s : gset coord) : M (gset coord) :=
  let* (x, y) := random_choice (elements s) in
  let s := s ∖ {[ (x, y) ]} in
  let* ns := __neighbours x y in
  let* n :=
    if bool_decide (ns ≠ ∅) then
      let* (nx, ny) := random_choice (elements ns) in
      __connect x y nx ny ;;
      ret (Some (nx, ny))
    else ret None in
  let* fs := __frontier x y in
  let s := fs ∪ s in
  record (Iteration (x, y) ns n fs s) ;;
  ret s.

(** Line 220: [while s:]. *)
Fixpoint generate_while (fuel : nat) (s : gset coord) : M unit :=
  if bool_decide (s = ∅) then ret ()
  else
    match fuel with
    | O => out_of_fuel
    | S fuel' => let* s' := generate_body s in generate_while fuel' s'
    end.

(** Lines 199-229. *)
Definition __generate (fuel : nat) : M unit :=
  let* s := generate_init in
  generate_while fuel s.

(** Lines 132-136: the constructor.  The object exists only when
    [__init__] returns. *)
Definition __init__ (fuel : nat) (width height : Z) : res World :=
  match np_zeros width height with
  | Ret g =>
      match __generate fuel (fresh width height g) with
      | (Ret _, W') => Ret W'
      | (Raise e, _) => Raise e
      | (OutOfFuel, _) => OutOfFuel
      end
  | Raise e => Raise e
  | OutOfFuel => OutOfFuel
  end.

End Generator.

(** * The environment [MazeEnv]: [_gen_grid] *)

(** The objects [_gen_grid] creates: [Wall()] and [Goal()]. *)
Inductive WorldObj : Type := Wall | Goal.

(** A call into the MiniGrid base classes, whose code is not part of
    [maze.py]: [self.grid = Grid(width, height)],
    [self.grid.wall_rect(x, y, w, h)], [self.put_obj(obj, i, j)] and
    [self.place_agent()].  [_gen_grid] uses the result of none of them. *)
Inductive call : Type :=
| Grid (width height : Z)
| wall_rect (x y w h : Z)
| put_obj (obj : WorldObj) (i j : Z)
| place_agent.

(** The fields of the environment that [_gen_grid] reads or writes, and
    the calls it made into the base classes, oldest first. *)
Record MazeEnv : Type := {
  agent_start_pos : option coord;
  agent_start_dir : Z;
  agent_pos : option coord;
  agent_dir : Z;
  mission : string;
  calls : list call
}.

Definition Env (A : Type) : Type := MazeEnv → res A * MazeEnv.

Definition ret_env {A} (a : A) : Env A := λ E, (Ret a, E).
Definition bind_env {A B} (m : Env A) (f : A → Env B) : Env B := λ E,
  match m E with
  | (Ret a, E') => f a E'
  | (Raise e, E') => (Raise e, E')
  | (OutOfFuel, E') => (OutOfFuel, E')
  end.

Notation "'let+' x := m 'in' k" := (bind_env m (λ x, k))
  (at level 10, x pattern, m at level 100, k at level 200).
Notation "m ;+ k" := (bind_env m (λ _, k))
  (at level 100, k at level 200, right associativity).

(** The environment after the calls [cs], made in this order. *)
Definition called (cs : list call) (E : MazeEnv) : MazeEnv :=
  {| agent_start_pos := agent_start_pos E; agent_start_dir := agent_start_dir E;
     agent_pos := agent_pos E; agent_dir := agent_dir E; mission := mission E;
     calls := calls E ++ cs |}.

(** A call into the base classes, taken to return. *)
Definition host (c : call) : Env unit := λ E, (Ret (), called [c] E).

Definition get_agent_start_pos : Env (option coord) := λ E, (Ret (agent_start_pos E), E).

(** [self.agent_pos = self.agent_start_pos], the latter being [p], and
    [self.agent_dir = self.agent_start_dir]. *)
Definition set_agent (p : coord) : Env unit := λ E,
  (Ret (), {| agent_start_pos := agent_start_pos E; agent_start_dir := agent_start_dir E;
              agent_pos := Some p; agent_dir := agent_start_dir E; mission := mission E;
              calls := calls E |}).

Definition set_mission (m : string) : Env unit := λ E,
  (Ret (), {| agent_start_pos := agent_start_pos E; agent_start_dir := agent_start_dir E;
              agent_pos := agent_pos E; agent_dir := agent_dir E; mission := m;
              calls := calls E |}).

(** [maze.grid[i][j]] *)
Definition maze_grid (maze : World) (i j : Z) : Env bool := λ E,
  match getitem (grid (self maze)) i j with
  | Some b => (Ret b, E)
  | None => (Raise IndexError, E)
  end.

(** [range(n)] *)
Definition range (n : Z) : list Z := seqZ 0 n.

(** [for i in l: body], the local variables the body assigns being [s]. *)
Fixpoint for_ {A S} (l : list A) (body : A → S → Env S) (s : S) : Env S :=
  match l with
  | [] => ret_env s
  | i :: l' => let+ s' := body i s in for_ l' body s'
  end.

Section Environment.
Variable draws : nat → nat.
Variable fuel : nat.

(** [Maze_Generator(width, height)] *)
Definition Maze_Generator_ (width height : Z) : Env World := λ E,
  match __init__ draws fuel width height with
  | Ret W => (Ret W, E)
  | Raise e => (Raise e, E)
  | OutOfFuel => (OutOfFuel, E)
  end.

(** Lines 90-120.  The local variables of the loops are the pair
    [(last_pos_x, last_pos_y)]. *)
Definition _gen_grid (width height : Z) : Env unit :=
  host (Grid width height) ;+
  host (wall_rect 0 0 width height) ;+
  let+ maze := Maze_Generator_ (width - 2) (height - 2) in
  let+ last_pos :=
    for_ (range (height - 2)) (λ i last_pos,
      for_ (range (width - 2)) (λ j last_pos,
        let+ b := maze_grid maze i j in
        if b then ret_env last_pos
        else
          host (put_obj Wall (i + 1) (j + 1)) ;+
          ret_env (j, i))
      last_pos)
    (0, 0) in
  host (put_obj Goal last_pos.1 last_pos.2) ;+
  let+ start := get_agent_start_pos in
  match start with
  | Some p => set_agent p
  | None => host place_agent
  end ;+
  set_mission "get to the green goal square".

End Environment.

(** * The vocabulary of the properties *)

(** ** Lattices and their cells *)

(** The coordinate [c] lies in a lattice of shape [w] by [h]. *)
Definition inb (w h : Z) (c : coord) : Prop := 0 ≤ c.1 < w ∧ 0 ≤ c.2 < h.

(** The array has [w] rows of [h] entries. *)
Definition shaped (w h : Z) (a : ndarray) : Prop :=
  length a = Z.to_nat w ∧ ∀ i row, a !! i = Some row → length row = Z.to_nat h.

(** The object's array has the shape its fields announce. *)
Definition wf (w h : Z) (W : World) : Prop :=
  _width (self W) = w ∧ _height (self W) = h ∧ shaped w h (grid (self W)).

(** The cells of a [w] by [h] lattice, row by row. *)
Definition cells (w h : Z) : list coord :=
  x ← seqZ 0 w; (λ y, (x, y)) <$> seqZ 0 h.

(** The value of an in-bounds cell ([false] where the read would raise). *)
Definition cell (W : World) (c : coord) : bool :=
  default false (getitem (grid (self W)) c.1 c.2).

Definition passage (W : World) (c : coord) : Prop :=
  inb (_width (self W)) (_height (self W)) c ∧
  getitem (grid (self W)) c.1 c.2 = Some true.

Definition wall (W : World) (c : coord) : Prop :=
  inb (_width (self W)) (_height (self W)) c ∧
  getitem (grid (self W)) c.1 c.2 = Some false.

(** ** Distances, parities and moves *)

(** The two cells differ by exactly 2 along exactly one axis. *)
Definition dist2 (a b : coord) : Prop :=
  (b.2 = a.2 ∧ (b.1 = a.1 - 2 ∨ b.1 = a.1 + 2)) ∨
  (b.1 = a.1 ∧ (b.2 = a.2 - 2 ∨ b.2 = a.2 + 2)).

(** The two cells share a side. *)
Definition adjacent (a b : coord) : Prop :=
  Z.abs (a.1 - b.1) + Z.abs (a.2 - b.2) = 1.

(** The cell halfway, as [__connect] computes it. *)
Definition mid (a b : coord) : coord := ((a.1 + b.1) `div` 2, (a.2 + b.2) `div` 2).

Definition mid_of (cn : coord * coord) : coord := mid cn.1 cn.2.

(** Both coordinates even, both odd, exactly one odd. *)
Definition even2 (c : coord) : Prop := c.1 `mod` 2 = 0 ∧ c.2 `mod` 2 = 0.

Definition odd2 (c : coord) : Prop := c.1 `mod` 2 = 1 ∧ c.2 `mod` 2 = 1.

Definition one_odd (c : coord) : Prop :=
  (c.1 `mod` 2 = 1 ∧ c.2 `mod` 2 = 0) ∨ (c.1 `mod` 2 = 0 ∧ c.2 `mod` 2 = 1).

(** A move between passages that share a side. *)
Definition step4 (W : World) (a b : coord) : Prop :=
  passage W a ∧ passage W b ∧ adjacent a b.

(** A move of exactly 2 along one axis between passages, over a passage. *)
Definition hop (W : World) (a b : coord) : Prop :=
  passage W a ∧ passage W b ∧ dist2 a b ∧ passage W (mid a b).

(** The same move, read off the cells of a lattice of shape [w] by [h]. *)
Definition step2 (w h : Z) (W : World) (a b : coord) : Prop :=
  inb w h a ∧ inb w h b ∧ dist2 a b ∧
  cell W a = true ∧ cell W b = true ∧ cell W (mid a b) = true.

(** ** Reading a history *)

(** The calls [__connect(x, y, nx, ny)] made, as pairs [((x, y), (nx, ny))]. *)
Fixpoint connects (hist : list event) : list (coord * coord) :=
  match hist with
  | [] => []
  | Iteration c _ (Some n) _ _ :: hist' => (c, n) :: connects hist'
  | _ :: hist' => connects hist'
  end.

(** The number of passes of the loop body. *)
Fixpoint iterations (hist : list event) : nat :=
  match hist with
  | [] => O
  | Iteration _ _ _ _ _ :: hist' => S (iterations hist')
  | Origin _ _ _ :: hist' => iterations hist'
  end.

(** The passes of the loop body that found a non-empty neighbour set. *)
Fixpoint found_neighbours (hist : list event) : nat :=
  match hist with
  | [] => O
  | Iteration _ ns _ _ _ :: hist' =>
      if decide (ns ≠ ∅) then S (found_neighbours hist') else found_neighbours hist'
  | Origin _ _ _ :: hist' => found_neighbours hist'
  end.

(** The working set after the most recent event. *)
Definition working_set (hist : list event) : gset coord :=
  match hist with
  | [] => ∅
  | Origin _ _ s :: _ => s
  | Iteration _ _ _ _ s :: _ => s
  end.

(** The parities an event of the history shows: the carved cell and every
    coordinate put into the working set have both coordinates even, the
    cell halfway to the chosen neighbour has exactly one odd coordinate. *)
Definition event_parity (e : event) : Prop :=
  match e with
  | Origin c fs s => even2 c ∧ ∀ f, f ∈ fs ∪ s → even2 f
  | Iteration c ns n fs s =>
      even2 c ∧ (∀ f, f ∈ fs ∪ s → even2 f) ∧ ∀ p, n = Some p → one_odd (mid c p)
  end.

(** What the invariant of the loop says of an event. *)
Definition event_ok (e : event) : Prop :=
  match e with
  | Origin c fs s => c = (0, 0) ∧ ∀ f, f ∈ fs ∪ s → even2 f
  | Iteration c ns n fs s =>
      even2 c ∧ ns ≠ ∅ ∧ (∃ p, n = Some p ∧ p ∈ ns ∧ one_odd (mid c p)) ∧
      ∀ f, f ∈ fs ∪ s → even2 f
  end.

(** ** The graph of a lattice *)

#[local] Instance inb_dec w h c : Decision (inb w h c).
Proof. unfold inb. apply _. Defined.

#[local] Instance even2_dec c : Decision (even2 c).
Proof. unfold even2. apply _. Defined.

#[local] Instance one_odd_dec c : Decision (one_odd c).
Proof. unfold one_odd. apply _. Defined.

#[local] Instance dist2_dec a b : Decision (dist2 a b).
Proof. unfold dist2. apply _. Defined.

#[local] Instance passage_dec W c : Decision (passage W c).
Proof. unfold passage. apply _. Defined.

#[local] Instance hop_dec W a b : Decision (hop W a b).
Proof. unfold hop. apply _. Defined.

#[local] Instance odd2_dec c : Decision (odd2 c).
Proof. unfold odd2. apply _. Defined.

#[local] Instance adjacent_dec a b : Decision (adjacent a b).
Proof. unfold adjacent. apply _. Defined.

#[local] Instance wall_dec W c : Decision (wall W c).
Proof. unfold wall. apply _. Defined.

#[local] Instance step4_dec W a b : Decision (step4 W a b).
Proof. unfold step4. apply _. Defined.

(** The passages of the lattice. *)
Definition passages (W : World) : list coord :=
  filter (passage W) (cells (_width (self W)) (_height (self W))).

(** The nodes: the passages with both coordinates even.  They are the
    cells that hops from the origin can reach at all, a hop keeping both
    parities. *)
Definition nodes (W : World) : list coord :=
  filter (λ c, passage W c ∧ even2 c) (cells (_width (self W)) (_height (self W))).

(** The pairs of cells at distance 2, each pair once: a cell with the cell
    two rows further, and with the cell two columns further. *)
Definition pairs2 (w h : Z) : list (coord * coord) :=
  c ← cells w h; [(c, (c.1 + 2, c.2)); (c, (c.1, c.2 + 2))].

(** The edges: the pairs of nodes joined by a hop. *)
Definition edges (W : World) : list (coord * coord) :=
  filter (λ e, even2 e.1 ∧ hop W e.1 e.2) (pairs2 (_width (self W)) (_height (self W))).

(** ** The loop *)

(** What one pass of the loop body does when the popped cell has a
    passage at distance 2: it carves the popped cell [c] and the cell
    halfway to the chosen neighbour [n]. *)
Record carving (w h : Z) (s : gset coord) (W : World) (s' : gset coord) (W' : World)
    (c n : coord) (ns fs : gset coord) : Prop := {
  cv_pop : c ∈ s;
  cv_ns : ∀ p, p ∈ ns ↔ inb w h c ∧ inb w h p ∧ dist2 c p ∧ cell W p = true;
  cv_n : n ∈ ns;
  cv_wf : wf w h W';
  cv_cell : ∀ p, inb w h p →
    cell W' p = if decide (p = c ∨ p = mid c n) then true else cell W p;
  cv_fs : ∀ p, p ∈ fs ↔ inb w h c ∧ inb w h p ∧ dist2 c p ∧ cell W' p = false;
  cv_s' : s' = fs ∪ (s ∖ {[ c ]});
  cv_hist : history W' = Iteration c ns (Some n) fs s' :: history W;
  cv_consumed : consumed W' = S (S (consumed W))
}.
Arguments cv_pop {w h s W s' W' c n ns fs} _.
Arguments cv_ns {w h s W s' W' c n ns fs} _.
Arguments cv_n {w h s W s' W' c n ns fs} _.
Arguments cv_wf {w h s W s' W' c n ns fs} _.
Arguments cv_cell {w h s W s' W' c n ns fs} _.
Arguments cv_fs {w h s W s' W' c n ns fs} _.
Arguments cv_s' {w h s W s' W' c n ns fs} _.
Arguments cv_hist {w h s W s' W' c n ns fs} _.
Arguments cv_consumed {w h s W s' W' c n ns fs} _.

(** The invariant of the loop, between two passes, on a lattice of shape
    [w] by [h] with the working set [s]: the cells of the working set are
    walls with both coordinates even and a passage at distance 2; the
    passages with both coordinates even are the origin and the cells
    popped so far, those with one odd coordinate the cells halfway of the
    calls of [__connect], and no cell with both coordinates odd is one;
    every popped cell was connected; the passages with both coordinates
    even are joined to the origin by hops. *)
Record Inv (w h : Z) (s : gset coord) (W : World) : Prop := {
  inv_wf : wf w h W;
  inv_ws : working_set (history W) = s;
  inv_s : ∀ c, c ∈ s →
    inb w h c ∧ even2 c ∧ cell W c = false ∧
    ∃ p, inb w h p ∧ dist2 c p ∧ cell W p = true;
  inv_nodes : ∀ c, inb w h c → even2 c →
    (cell W c = true ↔ c ∈ (0, 0) :: (connects (history W)).*1);
  inv_mids : ∀ m, inb w h m → one_odd m →
    (cell W m = true ↔ m ∈ mid_of <$> connects (history W));
  inv_odd : ∀ c, inb w h c → odd2 c → cell W c = false;
  inv_connects : ∀ c n, (c, n) ∈ connects (history W) →
    inb w h c ∧ inb w h n ∧ even2 c ∧ even2 n ∧ dist2 c n ∧
    cell W c = true ∧ cell W n = true;
  inv_nodup : NoDup ((0, 0) :: (connects (history W)).*1);
  inv_nodup_mids : NoDup (mid_of <$> connects (history W));
  inv_conn : ∀ c, inb w h c → even2 c → cell W c = true → rtc (step2 w h W) (0, 0) c;
  inv_count : length (connects (history W)) = iterations (history W)
              ∧ found_neighbours (history W) = iterations (history W);
  inv_events : Forall event_ok (history W)
}.
Arguments inv_wf {w h s W} _.
Arguments inv_ws {w h s W} _.
Arguments inv_s {w h s W} _.
Arguments inv_nodes {w h s W} _.
Arguments inv_mids {w h s W} _.
Arguments inv_odd {w h s W} _.
Arguments inv_connects {w h s W} _.
Arguments inv_nodup {w h s W} _.
Arguments inv_nodup_mids {w h s W} _.
Arguments inv_conn {w h s W} _.
Arguments inv_count {w h s W} _.
Arguments inv_events {w h s W} _.

(** The coordinate [c] is a legal index pair of an array of shape [w] by
    [h], and the cell it then denotes. *)
Definition indexable (w h : Z) (c : coord) : Prop := - w ≤ c.1 < w ∧ - h ≤ c.2 < h.

Definition wrap (w h : Z) (c : coord) : coord := (c.1 `mod` w, c.2 `mod` h).

#[local] Instance indexable_dec w h c : Decision (indexable w h c).
Proof. unfold indexable. apply _. Defined.

(** A move of exactly 2 along one axis between two cells of a lattice of
    shape [w] by [h], whatever they hold: the connectivity graph on which
    the generator works. *)
Definition lattice2 (w h : Z) (a b : coord) : Prop :=
  inb w h a ∧ inb w h b ∧ dist2 a b.

(** The cells with both coordinates even of a lattice of shape [w] by
    [h]. *)
Definition evens (w h : Z) : list coord :=
  (λ c : coord, (2 * c.1, 2 * c.2)) <$> cells ((w + 1) `div` 2) ((h + 1) `div` 2).

(** What the loop keeps besides [Inv]: every wall at distance 2 of a
    passage with both coordinates even waits in the working set, and each
    pass made two draws. *)
Record Inv2 (w h : Z) (s : gset coord) (W : World) : Prop := {
  inv_complete : ∀ p c, inb w h p → even2 p → cell W p = true →
    inb w h c → dist2 p c → cell W c = false → c ∈ s;
  inv_consumed : consumed W = (2 * iterations (history W))%nat
}.
Arguments inv_complete {w h s W} _.
Arguments inv_consumed {w h s W} _.

(** ** The arena of the environment *)

(** The tile of the arena on which [_gen_grid] puts the wall of a cell:
    the arena has a border of one tile around the lattice. *)
Definition tile (c : coord) : coord := (c.1 + 1, c.2 + 1).

(** The walls of the lattice, row by row. *)
Definition walls (W : World) : list coord :=
  filter (wall W) (cells (_width (self W)) (_height (self W))).

(** The order in which the two loops of [_gen_grid] visit the cells. *)
Definition lex (a b : coord) : Prop := a.1 < b.1 ∨ (a.1 = b.1 ∧ a.2 < b.2).

(** What the body of the inner loop of [_gen_grid] does at the cell [c],
    [c.1] being [i] and [c.2] being [j]. *)
Definition scan (maze : World) (c last_pos : coord) : Env coord :=
  let+ b := maze_grid maze c.1 c.2 in
  if b then ret_env last_pos
  else
    host (put_obj Wall (c.1 + 1) (c.2 + 1)) ;+
    ret_env (c.2, c.1).

(** The value of [(last_pos_x, last_pos_y)] after a scan of the cells [l]
    that started with [last_pos]. *)
Definition last_wall (maze : World) (l : list coord) (last_pos : coord) : coord :=
  match last (filter (wall maze) l) with
  | Some c => (c.2, c.1)
  | None => last_pos
  end.

(** ** Lattices used as examples *)

(** The one-cell lattice the constructor returns for width 1 and height 1. *)
Definition maze_1_1 : World :=
  {| self := {| _width := 1; _height := 1; grid := [[true]] |};
     consumed := O; history := [Origin (0, 0) ∅ ∅] |}.

(** A lattice of 3 by 1 walls, and the same with a passage in the middle. *)
Definition walls_3_1 : World := fresh 3 1 [[false]; [false]; [false]].

Definition middle_3_1 : World := fresh 3 1 [[false]; [true]; [false]].

(** An environment with the agent's start as [MazeEnv.__init__] defaults
    it, [agent_start_pos=(1, 1)] and [agent_start_dir=0], and one without a
    start, before any call. *)
Definition env_default : MazeEnv :=
  {| agent_start_pos := Some (1, 1); agent_start_dir := 0;
     agent_pos := None; agent_dir := 0; mission := EmptyString; calls := [] |}.

Definition env_random_start : MazeEnv :=
  {| agent_start_pos := None; agent_start_dir := 0;
     agent_pos := None; agent_dir := 0; mission := EmptyString; calls := [] |}.

(** ** Tactics *)

(** Linear arithmetic with division and remainder by constants. *)
Ltac zlia := Z.div_mod_to_equations; lia.

(** Case analysis on the comparisons of a guard. *)
Ltac ltb_cases :=
  repeat match goal with
  | |- context [?a <? ?b] => destruct (Z.ltb_spec a b)
  | |- context [?a <=? ?b] => destruct (Z.leb_spec a b)
  | H : context [?a <? ?b] |- _ => destruct (Z.ltb_spec a b)
  | H : context [?a <=? ?b] |- _ => destruct (Z.leb_spec a b)
  end.

(** A guard that holds puts the cell it protects inside the lattice. *)
Ltac guard_inb :=
  done || (intros; unfold inb; simpl; ltb_cases; simpl in *; try done; lia).

(** * Properties *)

(** ** Arrays *)

Lemma py_index_inb (n : nat) (i : Z) :
  0 ≤ i < Z.of_nat n → py_index n i = Some (Z.to_nat i).
Proof.
  intros Hi. unfold py_index.
  destruct (Z.leb_spec 0 i); [|lia]. destruct (Z.ltb_spec i (Z.of_nat n)); [|lia].
  reflexivity.
Qed.

Lemma getitem_inb w h a x y :
  shaped w h a → inb w h (x, y) → is_Some (getitem a x y).
Proof.
  intros [Hlen Hrows] [Hx Hy]; simpl in *. unfold getitem.
  rewrite py_index_inb by lia. simpl.
  destruct (lookup_lt_is_Some_2 a (Z.to_nat x)) as [row Hrow]; [lia|].
  rewrite Hrow. simpl. pose proof (Hrows _ _ Hrow) as Hr.
  rewrite py_index_inb by lia. simpl.
  apply lookup_lt_is_Some_2. lia.
Qed.

Lemma setitem_inb w h a x y v :
  shaped w h a → inb w h (x, y) →
  ∃ a', setitem a x y v = Some a' ∧ shaped w h a' ∧
        ∀ x' y', inb w h (x', y') →
          getitem a' x' y' = if decide ((x', y') = (x, y)) then Some v else getitem a x' y'.
Proof.
  intros [Hlen Hrows] [Hx Hy]; simpl in *. unfold setitem.
  rewrite py_index_inb by lia. simpl.
  destruct (lookup_lt_is_Some_2 a (Z.to_nat x)) as [row Hrow]; [lia|].
  rewrite Hrow. simpl. pose proof (Hrows _ _ Hrow) as Hr.
  rewrite py_index_inb by lia. simpl.
  eexists. split; [reflexivity|]. split.
  - split; [by rewrite length_insert|].
    intros i r Hi. destruct (decide (i = Z.to_nat x)) as [->|Hne].
    + rewrite list_lookup_insert_eq in Hi by lia. inversion Hi; subst.
      by rewrite length_insert.
    + rewrite list_lookup_insert_ne in Hi by done. eauto.
  - intros x' y' [Hx' Hy']; simpl in *. unfold getitem.
    rewrite length_insert. rewrite !py_index_inb by lia. simpl.
    destruct (decide (x' = x)) as [->|Hne].
    + rewrite list_lookup_insert_eq by lia. rewrite Hrow. simpl.
      rewrite length_insert. rewrite !py_index_inb by lia. simpl.
      destruct (decide (y' = y)) as [->|Hney].
      * rewrite decide_True by done. apply list_lookup_insert_eq. lia.
      * rewrite decide_False by congruence. apply list_lookup_insert_ne. lia.
    + rewrite decide_False by congruence.
      rewrite list_lookup_insert_ne by lia. reflexivity.
Qed.

Lemma py_index_lt n i j : py_index n i = Some j → (j < n)%nat.
Proof.
  unfold py_index. intros Hj.
  destruct ((0 <=? i) && (i <? Z.of_nat n)) eqn:E1.
  - apply andb_prop in E1 as [?%Z.leb_le ?%Z.ltb_lt]. simplify_eq. lia.
  - destruct ((- Z.of_nat n <=? i) && (i <? 0)) eqn:E2; [|done].
    apply andb_prop in E2 as [?%Z.leb_le ?%Z.ltb_lt]. simplify_eq. lia.
Qed.

(** Python's index rule: inside [[-n, n)] the index is taken modulo [n],
    outside the access fails. *)
Lemma py_index_spec n i :
  py_index n i =
    if decide (- Z.of_nat n ≤ i < Z.of_nat n) then Some (Z.to_nat (i `mod` Z.of_nat n))
    else None.
Proof.
  unfold py_index.
  destruct (Z.leb_spec 0 i), (Z.ltb_spec i (Z.of_nat n)),
    (Z.leb_spec (- Z.of_nat n) i), (Z.ltb_spec i 0); simpl;
    case_decide; try lia; try done.
  - by rewrite Z.mod_small by lia.
  - f_equal. f_equal.
    rewrite <- (Z.mod_small (Z.of_nat n + i) (Z.of_nat n)) by lia.
    rewrite Z.add_comm. rewrite <- (Z.mul_1_l (Z.of_nat n)) at 1.
    rewrite Z.mod_add by lia. done.
Qed.

(** A write fails exactly when the read of the same cell fails. *)
Lemma setitem_None a x y v : setitem a x y v = None ↔ getitem a x y = None.
Proof.
  unfold setitem, getitem.
  destruct (py_index (length a) x) as [i|]; simpl; [|done].
  destruct (a !! i) as [row|]; simpl; [|done].
  destruct (py_index (length row) y) as [j|] eqn:Hj; simpl; [|done].
  apply py_index_lt in Hj. apply lookup_lt_is_Some_2 in Hj as [b ->]. done.
Qed.

(** A read on a lattice of shape [w] by [h]: inside [[-w, w)] by [[-h, h)]
    it is the read of the cell taken modulo the shape, elsewhere it fails. *)
Lemma getitem_spec w h a x y :
  shaped w h a → 0 ≤ w → 0 ≤ h →
  getitem a x y =
    if decide (- w ≤ x < w ∧ - h ≤ y < h) then getitem a (x `mod` w) (y `mod` h)
    else None.
Proof.
  intros [Hlen Hrows] Hw Hh.
  destruct (decide (- w ≤ x < w ∧ - h ≤ y < h)) as [[Hx Hy]|Hn].
  - assert (0 ≤ x `mod` w < w) as Hxm by (apply Z.mod_pos_bound; lia).
    assert (0 ≤ y `mod` h < h) as Hym by (apply Z.mod_pos_bound; lia).
    unfold getitem. rewrite !py_index_spec, !Hlen, !Z2Nat.id by lia.
    rewrite (decide_True (P := - w ≤ x < w)) by done.
    rewrite (decide_True (P := - w ≤ x `mod` w < w)) by lia. simpl.
    rewrite Z.mod_mod by lia.
    destruct (a !! Z.to_nat (x `mod` w)) as [row|] eqn:Hrow; simpl; [|done].
    rewrite !py_index_spec, !(Hrows _ _ Hrow), !Z2Nat.id by lia.
    rewrite (decide_True (P := - h ≤ y < h)) by done.
    rewrite (decide_True (P := - h ≤ y `mod` h < h)) by lia. simpl.
    by rewrite Z.mod_mod by lia.
  - unfold getitem. rewrite py_index_spec, Hlen, Z2Nat.id by lia.
    destruct (decide (- w ≤ x < w)) as [Hx|Hx]; simpl; [|done].
    destruct (a !! Z.to_nat (x `mod` w)) as [row|] eqn:Hrow; simpl; [|done].
    rewrite py_index_spec, (Hrows _ _ Hrow), Z2Nat.id by lia.
    rewrite decide_False by tauto. done.
Qed.

Lemma np_zeros_shaped w h :
  0 ≤ w → 0 ≤ h →
  ∃ a, np_zeros w h = Ret a ∧ shaped w h a ∧
       ∀ x y, inb w h (x, y) → getitem a x y = Some false.
Proof.
  intros Hw Hh. unfold np_zeros.
  destruct (Z.ltb_spec w 0); [lia|]. destruct (Z.ltb_spec h 0); [lia|]. simpl.
  eexists. split; [reflexivity|]. split.
  - split; [by rewrite length_replicate|].
    intros i row Hi. apply lookup_replicate in Hi as [-> _].
    by rewrite length_replicate.
  - intros x y [Hx Hy]; simpl in *. unfold getitem.
    rewrite length_replicate. rewrite py_index_inb by lia. simpl.
    rewrite lookup_replicate_2 by lia. simpl.
    rewrite length_replicate. rewrite py_index_inb by lia. simpl.
    apply lookup_replicate_2. lia.
Qed.

Lemma elem_of_cells w h c : c ∈ cells w h ↔ inb w h c.
Proof.
  unfold cells, inb. rewrite list_elem_of_bind. split.
  - intros (x & Hc & Hx). apply list_elem_of_fmap in Hc as (y & -> & Hy).
    apply elem_of_seqZ in Hx, Hy. simpl. lia.
  - intros [Hx Hy]. exists c.1. split.
    + apply list_elem_of_fmap. exists c.2. split; [by destruct c|].
      apply elem_of_seqZ. lia.
    + apply elem_of_seqZ. lia.
Qed.

Lemma NoDup_pairs {A B} (l : list A) (k : list B) :
  NoDup l → NoDup k → NoDup (x ← l; (λ y, (x, y)) <$> k).
Proof.
  intros Hl Hk. induction Hl as [|x l Hx Hl IH]; [constructor|].
  rewrite bind_cons. apply NoDup_app. split_and!; [|..|done].
  - apply NoDup_fmap_2; [|done]. intros ?? [=]. done.
  - intros [a b] Hab Hin. apply list_elem_of_fmap in Hab as (y & [= -> ->] & _).
    apply list_elem_of_bind in Hin as (x' & Hin & Hx').
    apply list_elem_of_fmap in Hin as (y' & [= -> ->] & _). done.
Qed.

Lemma length_pairs {A B} (l : list A) (k : list B) :
  length (x ← l; (λ y, (x, y)) <$> k) = (length l * length k)%nat.
Proof.
  induction l as [|x l IH]; [done|].
  rewrite bind_cons, length_app, length_fmap, IH. done.
Qed.

Lemma NoDup_cells w h : NoDup (cells w h).
Proof. apply NoDup_pairs; apply NoDup_seqZ. Qed.

Lemma length_cells w h : 0 ≤ w → 0 ≤ h → length (cells w h) = Z.to_nat (w * h).
Proof.
  intros Hw Hh. unfold cells. rewrite length_pairs, !length_seqZ. lia.
Qed.

(** ** Reads and writes of the object *)

Lemma grid_get_inb w h W x y :
  wf w h W → inb w h (x, y) → grid_get x y W = (Ret (cell W (x, y)), W).
Proof.
  intros (_ & _ & Hs) Hin. unfold grid_get, cell. simpl.
  destruct (getitem_inb _ _ _ _ _ Hs Hin) as [b ->]. reflexivity.
Qed.

Lemma grid_set_inb w h W x y v :
  wf w h W → inb w h (x, y) →
  ∃ W', grid_set x y v W = (Ret (), W') ∧ wf w h W' ∧
        consumed W' = consumed W ∧ history W' = history W ∧
        ∀ c, inb w h c → cell W' c = if decide (c = (x, y)) then v else cell W c.
Proof.
  intros (Hw & Hh & Hs) Hin. unfold grid_set.
  destruct (setitem_inb _ _ _ _ _ v Hs Hin) as (a' & -> & Hs' & Hget).
  eexists. split; [reflexivity|]. split; [done|]. do 2 (split; [done|]).
  intros [x' y'] Hc. unfold cell. simpl. rewrite Hget by done.
  by destruct (decide _).
Qed.

Lemma and_then_wall w h W g x y :
  wf w h W → (g = true → inb w h (x, y)) →
  and_then g (not_ (grid_get x y)) W = (Ret (g && negb (cell W (x, y))), W).
Proof.
  intros Hwf Hin. destruct g; [|reflexivity]. simpl.
  unfold not_, bind. by rewrite (grid_get_inb w h) by auto.
Qed.

Lemma and_then_passage w h W g x y :
  wf w h W → (g = true → inb w h (x, y)) →
  and_then g (grid_get x y) W = (Ret (g && cell W (x, y)), W).
Proof.
  intros Hwf Hin. destruct g; [|reflexivity]. simpl.
  by rewrite (grid_get_inb w h) by auto.
Qed.

Lemma elements_nonempty (s : gset coord) : s ≠ ∅ → elements s ≠ [].
Proof. intros Hne He. apply Hne. apply leibniz_equiv. by apply elements_empty_inv. Qed.

Lemma elem_of_set_add (c p : coord) (f : gset coord) :
  c ∈ set_add p f ↔ c = p ∨ c ∈ f.
Proof. unfold set_add. set_solver. Qed.

Lemma elem_of_if_add (b : bool) (c p : coord) (f : gset coord) :
  c ∈ (if b then set_add p f else f) ↔ (b = true ∧ c = p) ∨ c ∈ f.
Proof. destruct b; rewrite ?elem_of_set_add; intuition congruence. Qed.

Section Methods.
Variable draws : nat → nat.
Variables w h : Z.

(** [__frontier] returns, reads only, and finds the walls at distance 2. *)
Lemma frontier_spec W x y :
  wf w h W →
  ∃ fs, __frontier x y W = (Ret fs, W) ∧
        ∀ c, c ∈ fs ↔ inb w h (x, y) ∧ inb w h c ∧ dist2 (x, y) c ∧ cell W c = false.
Proof.
  intros Hwf. pose proof Hwf as (Hw & Hh & _).
  unfold __frontier, bind at 1, get_self. cbv zeta. rewrite Hw, Hh.
  destruct ((0 <=? x) && (x <? w) && (0 <=? y) && (y <? h)) eqn:Hg.
  - unfold bind. do 4 rewrite (and_then_wall w h) by guard_inb.
    eexists. split; [reflexivity|].
    intros [cx cy]. rewrite !elem_of_if_add, elem_of_empty.
    rewrite !andb_true_iff, !negb_true_iff, !Z.ltb_lt.
    apply andb_prop in Hg as [Hg Hg4]. apply andb_prop in Hg as [Hg Hg3].
    apply andb_prop in Hg as [Hg1 Hg2].
    apply Z.leb_le in Hg1, Hg3. apply Z.ltb_lt in Hg2, Hg4.
    unfold inb, dist2; simpl. split.
    + intros [[[? ?] Hc]|[[[? ?] Hc]|[[[? ?] Hc]|[[[? ?] Hc]|[]]]]];
        simplify_eq; split_and!; (lia || auto).
    + intros (_ & Hc & [[-> [->| ->]] | [-> [->| ->]]] & Hv); simpl in Hc.
      * do 3 right; left. split_and!; (lia || auto).
      * do 2 right; left. split_and!; (lia || auto).
      * right; left. split_and!; (lia || auto).
      * left. split_and!; (lia || auto).
  - eexists. split; [reflexivity|].
    intros c. split; [set_solver|]. intros ([Hx Hy] & _); simpl in *.
    ltb_cases; simpl in Hg; try discriminate; lia.
Qed.

(** [__neighbours] returns, reads only, and finds the passages at distance 2. *)
Lemma neighbours_spec W x y :
  wf w h W →
  ∃ ns, __neighbours x y W = (Ret ns, W) ∧
        ∀ c, c ∈ ns ↔ inb w h (x, y) ∧ inb w h c ∧ dist2 (x, y) c ∧ cell W c = true.
Proof.
  intros Hwf. pose proof Hwf as (Hw & Hh & _).
  unfold __neighbours, bind at 1, get_self. cbv zeta. rewrite Hw, Hh.
  destruct ((0 <=? x) && (x <? w) && (0 <=? y) && (y <? h)) eqn:Hg.
  - unfold bind. do 4 rewrite (and_then_passage w h) by guard_inb.
    eexists. split; [reflexivity|].
    intros [cx cy]. rewrite !elem_of_if_add, elem_of_empty.
    rewrite !andb_true_iff, !Z.ltb_lt.
    apply andb_prop in Hg as [Hg Hg4]. apply andb_prop in Hg as [Hg Hg3].
    apply andb_prop in Hg as [Hg1 Hg2].
    apply Z.leb_le in Hg1, Hg3. apply Z.ltb_lt in Hg2, Hg4.
    unfold inb, dist2; simpl. split.
    + intros [[[? ?] Hc]|[[[? ?] Hc]|[[[? ?] Hc]|[[[? ?] Hc]|[]]]]];
        simplify_eq; split_and!; (lia || auto).
    + intros (_ & Hc & [[-> [->| ->]] | [-> [->| ->]]] & Hv); simpl in Hc.
      * do 3 right; left. split_and!; (lia || auto).
      * do 2 right; left. split_and!; (lia || auto).
      * right; left. split_and!; (lia || auto).
      * left. split_and!; (lia || auto).
  - eexists. split; [reflexivity|].
    intros c. split; [set_solver|]. intros ([Hx Hy] & _); simpl in *.
    ltb_cases; simpl in Hg; try discriminate; lia.
Qed.

Lemma random_choice_spec {A} (seq : list A) W :
  seq ≠ [] →
  ∃ a, a ∈ seq ∧
       random_choice draws seq W =
         (Ret a, {| self := self W; consumed := S (consumed W); history := history W |}).
Proof.
  intros Hne. unfold random_choice.
  assert (length seq ≠ 0%nat) as Hlen by (by destruct seq).
  destruct (lookup_lt_is_Some_2 seq (draws (consumed W) `mod` length seq)%nat) as [a Ha].
  { by apply Nat.mod_upper_bound. }
  exists a. split; [by eapply list_elem_of_lookup_2|]. by rewrite Ha.
Qed.

(** Every element of the sequence is the choice of some draw: the draws
    range over all the choices the code can make, whatever the order in
    which the sequence lists a set. *)
Lemma random_choice_any {A} (seq : list A) (a : A) W :
  a ∈ seq →
  ∃ d, random_choice (λ _, d) seq W =
         (Ret a, {| self := self W; consumed := S (consumed W); history := history W |}).
Proof.
  intros (i & Hi)%list_elem_of_lookup. exists i. unfold random_choice.
  rewrite Nat.mod_small by (by eapply lookup_lt_Some). by rewrite Hi.
Qed.

(** [__connect] on two in-bounds cells at distance 2 returns, having set
    exactly the first cell and the cell halfway. *)
Lemma connect_spec W x1 y1 x2 y2 :
  wf w h W → inb w h (x1, y1) → inb w h (x2, y2) → dist2 (x1, y1) (x2, y2) →
  ∃ W', __connect x1 y1 x2 y2 W = (Ret (), W') ∧ wf w h W' ∧
        consumed W' = consumed W ∧ history W' = history W ∧
        ∀ c, inb w h c →
          cell W' c = if decide (c = (x1, y1) ∨ c = mid (x1, y1) (x2, y2)) then true
                      else cell W c.
Proof.
  intros Hwf H1 H2 Hd. unfold __connect, bind. cbv zeta.
  destruct (grid_set_inb w h W x1 y1 true Hwf H1) as (W1 & -> & Hwf1 & Hc1 & Hh1 & Hcell1).
  assert (inb w h (mid (x1, y1) (x2, y2))) as Hm.
  { unfold inb, dist2, mid in *; simpl in *. zlia. }
  destruct (grid_set_inb w h W1 _ _ true Hwf1 Hm) as (W2 & HW2 & Hwf2 & Hc2 & Hh2 & Hcell2).
  unfold mid in HW2; simpl in HW2. rewrite HW2.
  exists W2. split; [done|]. split; [done|]. split; [congruence|]. split; [congruence|].
  intros c Hc. rewrite Hcell2, Hcell1 by done.
  repeat case_decide; first [done | exfalso; tauto].
Qed.

Lemma bind_ret {A B} (m : M A) (f : A → M B) W a W' :
  m W = (Ret a, W') → bind m f W = f a W'.
Proof. intros Hm. unfold bind. by rewrite Hm. Qed.

Lemma body_spec s W :
  wf w h W → s ≠ ∅ →
  (∀ c, c ∈ s → inb w h c ∧ ∃ p, inb w h p ∧ dist2 c p ∧ cell W p = true) →
  ∃ s' W' c n ns fs,
    generate_body draws s W = (Ret s', W') ∧ carving w h s W s' W' c n ns fs.
Proof.
  intros Hwf Hne Hs. unfold generate_body.
  destruct (random_choice_spec (elements s) W) as ([x y] & Hc & Hpick).
  { by apply elements_nonempty. }
  apply elem_of_elements in Hc.
  rewrite (bind_ret _ _ _ _ _ Hpick). clear Hpick.
  set (W1 := {| self := self W; consumed := S (consumed W); history := history W |}).
  assert (wf w h W1) as Hwf1 by done.
  destruct (neighbours_spec W1 x y Hwf1) as (ns & Hns & Hnsc).
  rewrite (bind_ret _ _ _ _ _ Hns). clear Hns.
  destruct (Hs _ Hc) as (Hcin & p & Hpin & Hpd & Hpc).
  assert (p ∈ ns) as Hpns by (by apply Hnsc).
  assert (ns ≠ ∅) as Hnsne by set_solver.
  rewrite bool_decide_eq_true_2 by done.
  destruct (random_choice_spec (elements ns) W1) as ([nx ny] & Hn & Hpick).
  { by apply elements_nonempty. }
  apply elem_of_elements in Hn.
  set (W2 := {| self := self W1; consumed := S (consumed W1); history := history W1 |}) in Hpick.
  assert (wf w h W2) as Hwf2 by done.
  pose proof (proj1 (Hnsc _) Hn) as (_ & Hnin & Hnd & Hnc).
  destruct (connect_spec W2 x y nx ny Hwf2 Hcin Hnin Hnd)
    as (W3 & Hconn & Hwf3 & Hcons3 & Hhist3 & Hcell3).
  destruct (frontier_spec W3 x y Hwf3) as (fs & Hfs & Hfsc).
  eexists _, _, (x, y), (nx, ny), ns, fs. split.
  - unfold bind. rewrite Hpick. cbv beta iota. rewrite Hconn. cbv beta iota.
    unfold ret at 1. cbv beta iota. rewrite Hfs. reflexivity.
  - split; simpl; try done. by rewrite Hhist3.
Qed.

(** *** Distances and parities *)

Lemma dist2_even2 a b : dist2 a b → even2 a → even2 b.
Proof. destruct a, b. unfold dist2, even2; simpl. intros. zlia. Qed.

Lemma dist2_mid_one_odd a b : dist2 a b → even2 a → one_odd (mid a b).
Proof. destruct a, b. unfold dist2, even2, one_odd, mid; simpl. intros. zlia. Qed.

Lemma dist2_mid_inb a b : dist2 a b → inb w h a → inb w h b → inb w h (mid a b).
Proof. destruct a, b. unfold dist2, inb, mid; simpl. intros. zlia. Qed.

Lemma even2_not_one_odd c : even2 c → one_odd c → False.
Proof. unfold even2, one_odd. lia. Qed.

Lemma odd2_not_one_odd c : odd2 c → one_odd c → False.
Proof. unfold odd2, one_odd. lia. Qed.

Lemma even2_not_odd2 c : even2 c → odd2 c → False.
Proof. unfold even2, odd2. lia. Qed.

Lemma dist2_sym a b : dist2 a b → dist2 b a.
Proof. destruct a, b. unfold dist2; simpl. lia. Qed.

Lemma mid_sym a b : mid a b = mid b a.
Proof. unfold mid. f_equal; f_equal; lia. Qed.

Lemma mid_inj a b c d :
  dist2 a b → dist2 c d → even2 a → even2 c → mid a b = mid c d →
  (a = c ∧ b = d) ∨ (a = d ∧ b = c).
Proof.
  destruct a as [a1 a2], b as [b1 b2], c as [c1 c2], d as [d1 d2].
  unfold dist2, even2, mid; simpl. intros Hab Hcd Ha Hc Hm. simplify_eq.
  assert ((a1 = c1 ∧ a2 = c2 ∧ b1 = d1 ∧ b2 = d2) ∨
          (a1 = d1 ∧ a2 = d2 ∧ b1 = c1 ∧ b2 = c2)) as [?|?] by zlia.
  - left. split; f_equal; lia.
  - right. split; f_equal; lia.
Qed.

Lemma step2_mono W W' a b :
  (∀ p, inb w h p → cell W p = true → cell W' p = true) →
  step2 w h W a b → step2 w h W' a b.
Proof.
  intros Hmono (Ha & Hb & Hd & Hca & Hcb & Hcm).
  unfold step2. split_and!; auto using dist2_mid_inb.
Qed.

(** One carving pass keeps the invariant. *)
Lemma Inv_step s W s' W' c n ns fs :
  Inv w h s W → carving w h s W s' W' c n ns fs → Inv w h s' W'.
Proof.
  intros HI Hcv.
  destruct (inv_s HI c (cv_pop Hcv)) as (Hcin & Hceven & Hcwall & _).
  pose proof (proj1 (cv_ns Hcv n) (cv_n Hcv))
    as (_ & Hnin & Hd & Hnpass).
  pose proof (dist2_even2 _ _ Hd Hceven) as Hneven.
  pose proof (dist2_mid_one_odd _ _ Hd Hceven) as Hmodd.
  pose proof (dist2_mid_inb _ _ Hd Hcin Hnin) as Hmin.
  pose proof (cv_cell Hcv) as Hcell.
  pose proof (cv_hist Hcv) as Hhist.
  pose proof (cv_fs Hcv) as Hfs.
  assert (∀ p, inb w h p → cell W p = true → cell W' p = true) as Hmono.
  { intros p Hp Hc. rewrite Hcell by done. by case_decide. }
  assert (cell W' c = true) as Hc'.
  { rewrite Hcell by done. rewrite decide_True; auto. }
  assert (cell W' (mid c n) = true) as Hm'.
  { rewrite Hcell by done. rewrite decide_True; auto. }
  assert (cell W (mid c n) = false) as Hmwall.
  { destruct (cell W (mid c n)) eqn:E; [|done].
    apply (proj1 (inv_mids HI _ Hmin Hmodd)) in E.
    apply list_elem_of_fmap in E as ([c' n'] & Hm & Hin).
    destruct (inv_connects HI _ _ Hin) as (?&?&?&?&Hd'&?&?).
    unfold mid_of in Hm; simpl in Hm.
    destruct (mid_inj _ _ _ _ Hd Hd' Hceven ltac:(done) Hm) as [[-> ->]|[-> ->]];
      congruence. }
  assert (∀ p, inb w h p → even2 p → cell W' p = true ↔ p = c ∨ cell W p = true) as Heven.
  { intros p Hp Hpe. rewrite Hcell by done. case_decide as Hdec; [|naive_solver].
    destruct Hdec as [->| ->]; [naive_solver|]. by destruct (even2_not_one_odd (mid c n)). }
  assert (∀ p, inb w h p → one_odd p → cell W' p = true ↔ p = mid c n ∨ cell W p = true) as Hodd1.
  { intros p Hp Hpo. rewrite Hcell by done. case_decide as Hdec; [|naive_solver].
    destruct Hdec as [->| ->]; [|naive_solver]. by destruct (even2_not_one_odd c). }
  split.
  - apply (cv_wf Hcv).
  - by rewrite Hhist.
  - intros d Hds. rewrite (cv_s' Hcv) in Hds.
    apply elem_of_union in Hds as [Hdf|Hds].
    + apply Hfs in Hdf as (_ & Hdin & Hdd & Hdw).
      split_and!; eauto using dist2_even2, dist2_sym.
    + apply elem_of_difference in Hds as [Hds Hdc].
      destruct (inv_s HI d Hds) as (Hdin & Hdeven & Hdwall & q & Hq & Hdq & Hqc).
      split_and!; eauto.
      destruct (cell W' d) eqn:E; [|done].
      apply (proj1 (Heven d Hdin Hdeven)) in E as [->|E]; [set_solver|congruence].
  - intros d Hdin Hdeven. rewrite Hhist; simpl. rewrite Heven by done.
    rewrite (inv_nodes HI) by done. rewrite !elem_of_cons. tauto.
  - intros m Hmi Hmo. rewrite Hhist; simpl. rewrite Hodd1 by done.
    rewrite (inv_mids HI) by done. rewrite !elem_of_cons. tauto.
  - intros d Hdin Hdodd. rewrite Hcell by done.
    case_decide as Hdec; [|by apply (inv_odd HI)].
    destruct Hdec as [->| ->].
    + by destruct (even2_not_odd2 c).
    + by destruct (odd2_not_one_odd (mid c n)).
  - intros c0 n0. rewrite Hhist; simpl. rewrite elem_of_cons.
    intros [Heq|Hin].
    + simplify_eq. split_and!; auto.
    + destruct (inv_connects HI _ _ Hin) as (?&?&?&?&?&?&?). split_and!; auto.
  - rewrite Hhist; simpl. pose proof (inv_nodup HI) as Hnd.
    apply NoDup_cons in Hnd as [Hnd1 Hnd2].
    assert (c ∉ (0, 0) :: (connects (history W)).*1) as Hcn.
    { intros Hin. apply (proj2 (inv_nodes HI c Hcin Hceven)) in Hin. congruence. }
    rewrite not_elem_of_cons in Hcn. destruct Hcn as [Hc0 Hcn].
    apply NoDup_cons. split.
    + rewrite not_elem_of_cons. split; [congruence|done].
    + apply NoDup_cons. done.
  - rewrite Hhist; simpl. apply NoDup_cons. split; [|apply (inv_nodup_mids HI)].
    intros Hin. apply (proj2 (inv_mids HI _ Hmin Hmodd)) in Hin. congruence.
  - intros d Hdin Hdeven Hdc. apply (proj1 (Heven d Hdin Hdeven)) in Hdc as [->|Hdc].
    + eapply rtc_r.
      * eapply rtc_subrel; [|apply (inv_conn HI n); done].
        intros ??. by apply step2_mono.
      * unfold step2. split_and!; auto using dist2_sym. by rewrite mid_sym.
    + eapply rtc_subrel; [|apply (inv_conn HI d); done].
      intros ??. by apply step2_mono.
  - rewrite Hhist; simpl. destruct (inv_count HI) as [-> Hf].
    split; [done|]. rewrite decide_True; [by rewrite Hf|].
    pose proof (cv_n Hcv). set_solver.
  - rewrite Hhist. constructor; [|apply (inv_events HI)].
    simpl. split_and!; auto.
    + pose proof (cv_n Hcv). set_solver.
    + exists n. split_and!; auto. apply (cv_n Hcv).
    + assert (∀ f, f ∈ fs → even2 f) as Hfe.
      { intros f Hf. apply Hfs in Hf as (_ & _ & Hfd & _). eauto using dist2_even2. }
      intros f. rewrite (cv_s' Hcv).
      rewrite !elem_of_union, elem_of_difference.
      intros [Hf|[Hf|[Hf _]]]; auto. by destruct (inv_s HI f Hf) as (_ & ? & _).
Qed.

(** The prelude of [__generate] establishes the invariant. *)
Lemma init_spec W0 :
  1 ≤ w → 1 ≤ h → wf w h W0 → (∀ c, inb w h c → cell W0 c = false) →
  history W0 = [] →
  ∃ s W1, generate_init W0 = (Ret s, W1) ∧ Inv w h s W1 ∧ consumed W1 = consumed W0.
Proof.
  intros Hw Hh Hwf Hwalls Hhist. unfold generate_init.
  assert (inb w h (0, 0)) as H0 by (unfold inb; simpl; lia).
  destruct (grid_set_inb w h W0 0 0 true Hwf H0) as (W1 & Hset & Hwf1 & Hc1 & Hh1 & Hcell1).
  destruct (frontier_spec W1 0 0 Hwf1) as (fs & Hfs & Hfsc).
  unfold bind. rewrite Hset, Hfs. unfold record, ret.
  eexists _, _. split; [reflexivity|].
  match goal with |- Inv _ _ _ ?Wf ∧ _ => set (W2 := Wf) end.
  assert (history W2 = [Origin (0, 0) fs (fs ∪ ∅)]) as Hh2.
  { unfold W2; simpl. by rewrite Hh1, Hhist. }
  assert (∀ c, inb w h c → cell W2 c = true ↔ c = (0, 0)) as Hcell.
  { intros c Hc. change (cell W2 c) with (cell W1 c).
    rewrite Hcell1 by done. case_decide; [done|].
    rewrite Hwalls by done. naive_solver. }
  assert (even2 (0, 0)) as He0 by done.
  split; [|done]. split.
  - done.
  - by rewrite Hh2.
  - intros c Hc. apply elem_of_union in Hc as [Hc|Hc]; [|by apply elem_of_empty in Hc].
    apply Hfsc in Hc as (_ & Hcin & Hd & Hcw).
    split_and!; eauto using dist2_even2.
    exists (0, 0). split_and!; auto using dist2_sym. by apply Hcell.
  - intros c Hc _. rewrite Hh2. simpl. rewrite list_elem_of_singleton.
    by apply Hcell.
  - intros m Hm Hmo. rewrite Hh2. simpl. rewrite elem_of_nil.
    rewrite Hcell by done. split; [|done]. intros ->. by destruct (even2_not_one_odd (0, 0)).
  - intros c Hc Hco. destruct (cell W2 c) eqn:E; [|done].
    apply Hcell in E as ->; [|done]. by destruct (even2_not_odd2 (0, 0)).
  - intros c n. rewrite Hh2. simpl. by rewrite elem_of_nil.
  - rewrite Hh2. simpl. apply NoDup_singleton.
  - rewrite Hh2. simpl. apply NoDup_nil_2.
  - intros c Hc _ Hcc. apply Hcell in Hcc as ->; [|done]. apply rtc_refl.
  - rewrite Hh2. done.
  - rewrite Hh2. constructor; [|constructor]. simpl. split; [done|].
    intros f. rewrite !elem_of_union, elem_of_empty.
    intros [Hf|[Hf|[]]]; apply Hfsc in Hf as (_ & _ & Hd & _); eauto using dist2_even2.
Qed.

Hypothesis w_pos : 1 ≤ w.
Hypothesis h_pos : 1 ≤ h.

(** While the working set is not empty, two more cells than passes made
    are accounted for: at most [w * h - 2] passes have been made. *)
Lemma iterations_bound s W c :
  Inv w h s W → c ∈ s → (S (S (iterations (history W))) ≤ Z.to_nat (w * h))%nat.
Proof.
  intros HI Hc.
  destruct (inv_s HI c Hc) as (Hcin & Hceven & Hcwall & _).
  destruct (inv_count HI) as [<- _].
  rewrite <- (length_fmap fst (connects (history W))).
  rewrite <- length_cells by lia.
  change (length (c :: (0%Z, 0%Z) :: (connects (history W)).*1) ≤ length (cells w h))%nat.
  apply submseteq_length, NoDup_submseteq.
  - apply NoDup_cons. split; [|apply (inv_nodup HI)].
    intros Hin. apply (proj2 (inv_nodes HI c Hcin Hceven)) in Hin. congruence.
  - intros d Hd. apply elem_of_cells.
    apply elem_of_cons in Hd as [->|Hd]; [done|].
    apply elem_of_cons in Hd as [->|Hd]; [unfold inb; simpl; lia|].
    apply list_elem_of_fmap in Hd as ([c' n'] & -> & Hin).
    by destruct (inv_connects HI _ _ Hin).
Qed.

(** At any time fewer passes have been made than the lattice has cells. *)
Lemma iterations_total s W :
  Inv w h s W → (S (iterations (history W)) ≤ Z.to_nat (w * h))%nat.
Proof.
  intros HI.
  destruct (inv_count HI) as [<- _].
  rewrite <- (length_fmap fst (connects (history W))).
  rewrite <- length_cells by lia.
  change (length ((0%Z, 0%Z) :: (connects (history W)).*1) ≤ length (cells w h))%nat.
  apply submseteq_length, NoDup_submseteq; [apply (inv_nodup HI)|].
  intros d Hd. apply elem_of_cells.
  apply elem_of_cons in Hd as [->|Hd]; [unfold inb; simpl; lia|].
  apply list_elem_of_fmap in Hd as ([c' n'] & -> & Hin).
  by destruct (inv_connects HI _ _ Hin).
Qed.

Lemma Inv_body s W :
  Inv w h s W → s ≠ ∅ →
  ∃ s' W', generate_body draws s W = (Ret s', W') ∧ Inv w h s' W' ∧
           iterations (history W') = S (iterations (history W)).
Proof.
  intros HI Hne.
  destruct (body_spec s W (inv_wf HI) Hne) as (s' & W' & c & n & ns & fs & Hb & Hcv).
  { intros c Hc. destruct (inv_s HI c Hc) as (? & _ & _ & ?). done. }
  exists s', W'. split; [done|]. split; [by eapply Inv_step|].
  by rewrite (cv_hist Hcv).
Qed.

(** The loop returns when given as much fuel as cells are left. *)
Lemma while_spec fuel s W :
  Inv w h s W → (Z.to_nat (w * h) ≤ fuel + S (iterations (history W)))%nat →
  ∃ W', generate_while draws fuel s W = (Ret (), W') ∧ Inv w h ∅ W'.
Proof.
  revert s W. induction fuel as [|fuel IH]; intros s W HI Hfuel; simpl.
  - case_bool_decide as Hs; [subst; by exists W|].
    apply set_choose_L in Hs as [c Hc].
    pose proof (iterations_bound _ _ _ HI Hc). lia.
  - case_bool_decide as Hs; [subst; by exists W|].
    destruct (Inv_body s W HI Hs) as (s' & W' & Hb & HI' & Hit).
    unfold bind. rewrite Hb. apply IH; [done|]. lia.
Qed.

(** Whatever the fuel, a loop that returns leaves the invariant with an
    empty working set. *)
Lemma while_returns fuel s W W' :
  Inv w h s W → generate_while draws fuel s W = (Ret (), W') → Inv w h ∅ W'.
Proof.
  revert s W. induction fuel as [|fuel IH]; intros s W HI; simpl.
  - case_bool_decide as Hs; [subst; by intros [= <-]|]. done.
  - case_bool_decide as Hs; [subst; by intros [= <-]|].
    destruct (Inv_body s W HI Hs) as (s' & W1 & Hb & HI' & Hit).
    unfold bind. rewrite Hb. by apply IH.
Qed.

End Methods.

(** More fuel does not change what a returning loop returns. *)
Lemma while_fuel_mono draws fuel fuel' s W r W' :
  generate_while draws fuel s W = (r, W') → r ≠ OutOfFuel → (fuel ≤ fuel')%nat →
  generate_while draws fuel' s W = (r, W').
Proof.
  revert fuel' s W. induction fuel as [|fuel IH]; intros fuel' s W; simpl.
  - case_bool_decide as Hs; [|by intros [= <- <-]].
    intros Hr _ _. destruct fuel'; simpl; by rewrite bool_decide_eq_true_2.
  - case_bool_decide as Hs.
    + intros Hr _ _. destruct fuel'; simpl; by rewrite bool_decide_eq_true_2.
    + intros Hr Hne Hle. destruct fuel' as [|fuel']; [lia|]. simpl.
      rewrite bool_decide_eq_false_2 by done.
      unfold bind in *. destruct (generate_body draws s W) as [[s'| |] W1]; try done.
      apply IH; [done..|lia].
Qed.

(** ** The constructor *)

(** With positive dimensions the constructor returns, and what it
    returns satisfies the invariant with an empty working set. *)
Lemma init_returns draws w h :
  1 ≤ w → 1 ≤ h →
  ∃ W, Inv w h ∅ W ∧
       ∀ fuel, (Z.to_nat (w * h) ≤ fuel)%nat → __init__ draws fuel w h = Ret W.
Proof.
  intros Hw Hh.
  destruct (np_zeros_shaped w h) as (a & Ha & Hs & Hwalls); [lia..|].
  set (W0 := fresh w h a).
  assert (wf w h W0) as Hwf0 by done.
  destruct (init_spec w h W0 Hw Hh Hwf0) as (s & W1 & Hinit & HI & _); [|done|].
  { intros [x y] Hc. unfold cell. simpl. by rewrite Hwalls. }
  destruct (while_spec draws w h Hw Hh (Z.to_nat (w * h)) s W1 HI) as (W & Hrun & HI'); [lia|].
  exists W. split; [done|]. intros fuel Hfuel.
  unfold __init__. rewrite Ha. fold W0. unfold __generate, bind. rewrite Hinit.
  by rewrite (while_fuel_mono _ _ fuel _ _ _ _ Hrun).
Qed.

(** Whatever the fuel, a world the constructor returns satisfies the
    invariant with an empty working set. *)
Lemma init_Inv draws fuel w h W :
  1 ≤ w → 1 ≤ h → __init__ draws fuel w h = Ret W → Inv w h ∅ W.
Proof.
  intros Hw Hh.
  destruct (np_zeros_shaped w h) as (a & Ha & Hs & Hwalls); [lia..|].
  set (W0 := fresh w h a).
  assert (wf w h W0) as Hwf0 by done.
  destruct (init_spec w h W0 Hw Hh Hwf0) as (s & W1 & Hinit & HI & _); [|done|].
  { intros [x y] Hc. unfold cell. simpl. by rewrite Hwalls. }
  unfold __init__. rewrite Ha. fold W0. unfold __generate, bind. rewrite Hinit.
  destruct (generate_while draws fuel s W1) as [[[]| |] W'] eqn:Hrun; try done.
  intros [= <-]. by eapply while_returns.
Qed.

(** On a lattice without cells [__generate] raises [IndexError] when it
    carves the origin, before any draw and with the lattice untouched. *)
Lemma generate_raises draws fuel w h :
  0 ≤ w → 0 ≤ h → ¬ (1 ≤ w ∧ 1 ≤ h) →
  ∃ g, np_zeros w h = Ret g ∧
       __generate draws fuel (fresh w h g) = (Raise IndexError, fresh w h g).
Proof.
  intros Hw Hh Hdim.
  destruct (np_zeros_shaped w h) as (a & Ha & Hs & Hwalls); [lia..|].
  exists a. split; [done|].
  unfold __generate, generate_init, bind, grid_set. simpl.
  assert (setitem a 0 0 true = None) as ->; [|done].
  apply setitem_None. rewrite (getitem_spec w h) by (done || lia).
  apply decide_False. lia.
Qed.

(** With a dimension below 1 the constructor raises: [ValueError] from
    [np.zeros] on a negative one, and otherwise [IndexError] from carving
    the origin of a lattice without cells. *)
Lemma init_raises draws fuel w h :
  ¬ (1 ≤ w ∧ 1 ≤ h) →
  __init__ draws fuel w h =
    Raise (if decide (w < 0 ∨ h < 0) then ValueError else IndexError).
Proof.
  intros Hdim. case_decide as Hneg.
  - unfold __init__, np_zeros.
    destruct (Z.ltb_spec w 0), (Z.ltb_spec h 0); simpl; try done; lia.
  - destruct (generate_raises draws fuel w h) as (g & Hg & Hgen); [lia..|done|].
    unfold __init__. rewrite Hg. by rewrite Hgen.
Qed.

(** ** Passages, walls and paths of a lattice *)

Lemma passage_cell w h W c :
  wf w h W → passage W c ↔ inb w h c ∧ cell W c = true.
Proof.
  intros (Hw & Hh & Hs). subst w h. unfold passage, cell. split.
  - intros [Hin ->]. done.
  - intros [Hin Hc]. split; [done|].
    destruct c as [x y]. destruct (getitem_inb _ _ _ _ _ Hs Hin) as [b Hb].
    simpl in *. rewrite Hb in *. simpl in Hc. by subst.
Qed.

Lemma wall_cell w h W c :
  wf w h W → wall W c ↔ inb w h c ∧ cell W c = false.
Proof.
  intros (Hw & Hh & Hs). subst w h. unfold wall, cell. split.
  - intros [Hin ->]. done.
  - intros [Hin Hc]. split; [done|].
    destruct c as [x y]. destruct (getitem_inb _ _ _ _ _ Hs Hin) as [b Hb].
    simpl in *. rewrite Hb in *. simpl in Hc. by subst.
Qed.

Lemma hop_step2 w h W a b : wf w h W → hop W a b ↔ step2 w h W a b.
Proof.
  intros Hwf. unfold hop, step2. rewrite !(passage_cell w h) by done.
  split; [tauto|]. intros (?&?&?&?&?&?). split_and!; auto using dist2_mid_inb.
Qed.

Lemma parity_cases (c : coord) : even2 c ∨ one_odd c ∨ odd2 c.
Proof. unfold even2, one_odd, odd2. zlia. Qed.

Lemma dist2_adjacent_mid a b : dist2 a b → adjacent a (mid a b) ∧ adjacent (mid a b) b.
Proof. destruct a, b. unfold dist2, adjacent, mid; simpl. intros. zlia. Qed.

(** A hop is two moves between cells that share a side. *)
Lemma hop_step4 W a b : hop W a b → rtc (step4 W) a b.
Proof.
  intros (Ha & Hb & Hd & Hm). destruct (dist2_adjacent_mid a b Hd).
  eapply rtc_l; [|apply rtc_once]; unfold step4; split_and!; done.
Qed.

Lemma rtc_hop_step4 W a b : rtc (hop W) a b → rtc (step4 W) a b.
Proof.
  induction 1 as [|a b c Hab _ IH]; [done|].
  etrans; [|exact IH]. by apply hop_step4.
Qed.

(** Under the invariant every passage is connected to the origin by hops
    when both its coordinates are even, and by moves between cells that
    share a side in any case. *)
Lemma Inv_hops w h s W c :
  Inv w h s W → passage W c → even2 c → rtc (hop W) (0, 0) c.
Proof.
  intros HI Hp He. pose proof (inv_wf HI) as Hwf.
  apply (passage_cell w h) in Hp as [Hin Hc]; [|done].
  eapply rtc_subrel; [|by apply (inv_conn HI)].
  intros ??. by apply hop_step2.
Qed.

Lemma Inv_path4 w h s W c :
  Inv w h s W → passage W c → rtc (step4 W) (0, 0) c.
Proof.
  intros HI Hp. pose proof (inv_wf HI) as Hwf.
  destruct (parity_cases c) as [He|[Ho|Ho]].
  - apply rtc_hop_step4. by eapply Inv_hops.
  - pose proof Hp as Hp'.
    apply (passage_cell w h) in Hp as [Hin Hc]; [|done].
    apply (inv_mids HI) in Hc; [|done..].
    apply list_elem_of_fmap in Hc as ([a b] & -> & Hab).
    destruct (inv_connects HI _ _ Hab) as (Ha & Hb & Hae & Hbe & Hd & Hca & Hcb).
    assert (passage W a) as Hpa by (by apply (passage_cell w h)).
    eapply rtc_r.
    + apply rtc_hop_step4. by eapply Inv_hops.
    + unfold step4. split_and!; [done..|]. by apply dist2_adjacent_mid.
  - apply (passage_cell w h) in Hp as [Hin Hc]; [|done].
    rewrite (inv_odd HI) in Hc by done. done.
Qed.

(** ** The graph of a lattice *)

Lemma elem_of_pairs2 w h a b :
  (a, b) ∈ pairs2 w h ↔ inb w h a ∧ (b = (a.1 + 2, a.2) ∨ b = (a.1, a.2 + 2)).
Proof.
  unfold pairs2. rewrite list_elem_of_bind. split.
  - intros (c & Hab & Hc%elem_of_cells).
    apply elem_of_cons in Hab as [[= -> ->]|Hab]; [auto|].
    apply list_elem_of_singleton in Hab as [= -> ->]. auto.
  - intros [Ha Hb]. exists a. split; [|by apply elem_of_cells].
    destruct Hb as [->| ->]; [by left|]. right. by left.
Qed.

Lemma NoDup_pairs2 w h : NoDup (pairs2 w h).
Proof.
  apply NoDup_bind; [| |apply NoDup_cells].
  - intros c1 c2 [a b] _ _ H1 H2.
    assert (a = c1) as <-.
    { apply elem_of_cons in H1 as [[= -> ->]|H1]; [done|].
      by apply list_elem_of_singleton in H1 as [= -> ->]. }
    apply elem_of_cons in H2 as [[= -> ->]|H2]; [done|].
    by apply list_elem_of_singleton in H2 as [= -> ->].
  - intros c _. apply NoDup_cons. split; [|apply NoDup_singleton].
    rewrite list_elem_of_singleton. intros [= H1 H2]. lia.
Qed.

Lemma NoDup_fst_unique {A B} (l : list (A * B)) x y1 y2 :
  NoDup l.*1 → (x, y1) ∈ l → (x, y2) ∈ l → y1 = y2.
Proof.
  induction l as [|[a b] l IH]; simpl; [by intros _ ?%elem_of_nil|].
  intros [Ha Hl]%NoDup_cons H1 H2.
  apply elem_of_cons in H1 as [[= -> ->]|H1], H2 as [[= ->]|H2]; auto.
  - destruct Ha. apply list_elem_of_fmap. by exists (a, y2).
  - subst. destruct Ha. apply list_elem_of_fmap. by exists (a, y1).
Qed.

Lemma elem_of_connects hist c n :
  (c, n) ∈ connects hist ↔ ∃ ns fs s, Iteration c ns (Some n) fs s ∈ hist.
Proof.
  induction hist as [|e hist IH]; simpl.
  - rewrite elem_of_nil. split; [done|]. intros (?&?&?&H). by apply elem_of_nil in H.
  - destruct e as [c0 fs0 s0|c0 ns0 [n0|] fs0 s0].
    + rewrite IH. split; intros (ns & fs & s & H); exists ns, fs, s.
      * by right.
      * by apply elem_of_cons in H as [?|?].
    + rewrite elem_of_cons, IH. split.
      * intros [[= -> ->]|(ns & fs & s & H)]; [exists ns0, fs0, s0; by left|].
        exists ns, fs, s. by right.
      * intros (ns & fs & s & H). apply elem_of_cons in H as [[= -> -> -> -> ->]|H]; [by left|].
        right. by exists ns, fs, s.
    + rewrite IH. split; intros (ns & fs & s & H); exists ns, fs, s.
      * by right.
      * by apply elem_of_cons in H as [?|?].
Qed.

(** The pass of the loop body on a working set none of whose cells has a
    passage at distance 2: the popped cell is not carved, nothing else is
    either, and its frontier still joins the working set. *)
Lemma body_no_neighbour draws w h s W :
  wf w h W → s ≠ ∅ →
  (∀ c p, c ∈ s → inb w h p → dist2 c p → cell W p = false) →
  ∃ c fs,
    c ∈ s ∧
    (∀ p, p ∈ fs ↔ inb w h c ∧ inb w h p ∧ dist2 c p ∧ cell W p = false) ∧
    generate_body draws s W =
      (Ret (fs ∪ (s ∖ {[ c ]})),
       {| self := self W; consumed := S (consumed W);
          history := Iteration c ∅ None fs (fs ∪ (s ∖ {[ c ]})) :: history W |}).
Proof.
  intros Hwf Hne Hs. unfold generate_body.
  destruct (random_choice_spec draws (elements s) W) as ([x y] & Hc & Hpick).
  { by apply elements_nonempty. }
  apply elem_of_elements in Hc.
  set (W1 := {| self := self W; consumed := S (consumed W); history := history W |}) in *.
  assert (wf w h W1) as Hwf1 by done.
  destruct (neighbours_spec w h W1 x y Hwf1) as (ns & Hns & Hnsc).
  assert (ns = ∅) as ->.
  { apply leibniz_equiv. intros p. split; [|by intros ?%elem_of_empty].
    intros (_ & Hp & Hd & Hpc)%Hnsc. change (cell W p = true) in Hpc.
    rewrite (Hs _ _ Hc Hp Hd) in Hpc. done. }
  destruct (frontier_spec w h W1 x y Hwf1) as (fs & Hfs & Hfsc).
  exists (x, y), fs. split_and!; [done|done|].
  unfold bind. rewrite Hpick, Hns.
  rewrite bool_decide_eq_false_2 by (intros Hn; by apply Hn).
  unfold ret at 1. cbv beta iota. rewrite Hfs. reflexivity.
Qed.

Section Graph.
Variables w h : Z.
Hypothesis w_pos : 1 ≤ w.
Hypothesis h_pos : 1 ≤ h.
Variables (s : gset coord) (W : World).
Hypothesis HI : Inv w h s W.

Lemma Inv_passage_origin : passage W (0, 0).
Proof.
  apply (passage_cell w h); [apply (inv_wf HI)|].
  assert (inb w h (0, 0)) as H0 by (unfold inb; simpl; lia).
  split; [done|]. apply (inv_nodes HI); [done..|]. by left.
Qed.

Lemma elem_of_nodes c : c ∈ nodes W ↔ passage W c ∧ even2 c.
Proof.
  unfold nodes. rewrite list_elem_of_filter, elem_of_cells.
  unfold passage. tauto.
Qed.

(** The nodes are the origin and the first arguments of the calls of
    [__connect], each once. *)
Lemma nodes_perm : nodes W ≡ₚ (0, 0) :: (connects (history W)).*1.
Proof.
  pose proof (inv_wf HI) as Hwf.
  apply NoDup_Permutation.
  - apply NoDup_filter, NoDup_cells.
  - apply (inv_nodup HI).
  - intros c. rewrite elem_of_nodes, (passage_cell w h) by done. split.
    + intros [[Hin Hc] He]. by apply (inv_nodes HI).
    + intros Hc.
      assert (inb w h c ∧ even2 c) as [Hin He].
      { apply elem_of_cons in Hc as [->|Hc]; [split; [unfold inb; simpl; lia|done]|].
        apply list_elem_of_fmap in Hc as ([c' n'] & -> & Hin).
        by destruct (inv_connects HI _ _ Hin) as (?&?&?&?). }
      split_and!; [done| |done]. by apply (inv_nodes HI).
Qed.

(** The nodes are the cells that hops from the origin reach. *)
Lemma nodes_reachable c : c ∈ nodes W ↔ rtc (hop W) (0, 0) c.
Proof.
  rewrite elem_of_nodes. split.
  - intros [Hp He]. by eapply Inv_hops.
  - revert c. apply (rtc_ind_r (λ c, passage W c ∧ even2 c)).
    + split; [apply Inv_passage_origin|done].
    + intros a b _ (_ & Hpb & Hd & _) [_ Hea].
      split; [done|]. by eapply dist2_even2.
Qed.

Lemma elem_of_edges a b :
  (a, b) ∈ edges W ↔
  (b = (a.1 + 2, a.2) ∨ b = (a.1, a.2 + 2)) ∧ even2 a ∧ hop W a b.
Proof.
  unfold edges. rewrite list_elem_of_filter, elem_of_pairs2. simpl.
  unfold hop, passage. tauto.
Qed.

(** The cells halfway of the edges are the cells halfway of the calls of
    [__connect], each once. *)
Lemma edges_perm : mid_of <$> edges W ≡ₚ mid_of <$> connects (history W).
Proof.
  pose proof (inv_wf HI) as Hwf.
  apply NoDup_Permutation.
  - apply NoDup_fmap_2_strong; [|apply NoDup_filter, NoDup_pairs2].
    intros [a1 b1] [a2 b2] H1 H2 Hm.
    apply elem_of_edges in H1 as (Hb1 & He1 & _ & _ & Hd1 & _).
    apply elem_of_edges in H2 as (Hb2 & He2 & _ & _ & Hd2 & _).
    unfold mid_of in Hm; simpl in Hm.
    destruct (mid_inj _ _ _ _ Hd1 Hd2 He1 He2 Hm) as [[-> ->]|[-> ->]]; [done|].
    exfalso. destruct a2 as [x2 y2], b2 as [x1 y1]; simpl in *.
    destruct Hb1 as [[=]|[=]], Hb2 as [[=]|[=]]; lia.
  - apply (inv_nodup_mids HI).
  - intros m. rewrite !list_elem_of_fmap. split.
    + intros ([a b] & -> & Hab). apply elem_of_edges in Hab as (_ & He & _ & _ & Hd & Hm).
      apply (passage_cell w h) in Hm as [Hmin Hmc]; [|done].
      apply list_elem_of_fmap. apply (inv_mids HI); [done| |done].
      by apply dist2_mid_one_odd.
    + intros ([c n] & -> & Hcn).
      destruct (inv_connects HI _ _ Hcn) as (Hc & Hn & Hce & Hne & Hd & Hcc & Hnc).
      assert (passage W c ∧ passage W n ∧ passage W (mid c n)) as (Hpc & Hpn & Hpm).
      { rewrite !(passage_cell w h) by done. split_and!; auto using dist2_mid_inb.
        apply (inv_mids HI); auto using dist2_mid_inb, dist2_mid_one_odd.
        apply list_elem_of_fmap. by exists (c, n). }
      destruct c as [cx cy], n as [nx ny].
      destruct Hd as [[Hy [Hx|Hx]]|[Hx [Hy|Hy]]]; simpl in *; subst.
      * exists ((cx - 2, cy), (cx, cy)). split; [apply mid_sym|].
        apply elem_of_edges. simpl. split_and!; auto.
        -- left. f_equal. lia.
        -- unfold hop. rewrite mid_sym. split_and!; auto. unfold dist2; simpl. lia.
      * exists ((cx, cy), (cx + 2, cy)). split; [done|].
        apply elem_of_edges. simpl. split_and!; auto.
        unfold hop. split_and!; auto. unfold dist2; simpl. lia.
      * exists ((cx, cy - 2), (cx, cy)). split; [apply mid_sym|].
        apply elem_of_edges. simpl. split_and!; auto.
        -- right. f_equal. lia.
        -- unfold hop. rewrite mid_sym. split_and!; auto. unfold dist2; simpl. lia.
      * exists ((cx, cy), (cx, cy + 2)). split; [done|].
        apply elem_of_edges. simpl. split_and!; auto.
        unfold hop. split_and!; auto. unfold dist2; simpl. lia.
Qed.

(** The passages are the nodes and the cells halfway of the calls of
    [__connect], each once. *)
Lemma passages_perm :
  passages W ≡ₚ ((0, 0) :: (connects (history W)).*1) ++ (mid_of <$> connects (history W)).
Proof.
  pose proof (inv_wf HI) as Hwf.
  assert (∀ c, c ∈ (0, 0) :: (connects (history W)).*1 → inb w h c ∧ even2 c) as Hnode.
  { intros c Hc.
    apply elem_of_cons in Hc as [->|Hc]; [split; [unfold inb; simpl; lia|done]|].
    apply list_elem_of_fmap in Hc as ([c' n'] & -> & Hin).
    by destruct (inv_connects HI _ _ Hin) as (?&?&?&?). }
  assert (∀ c, c ∈ mid_of <$> connects (history W) → inb w h c ∧ one_odd c) as Hmid.
  { intros c Hc. apply list_elem_of_fmap in Hc as ([c' n'] & -> & Hin).
    destruct (inv_connects HI _ _ Hin) as (?&?&?&?&?&?&?).
    split; [by apply dist2_mid_inb|by apply dist2_mid_one_odd]. }
  apply NoDup_Permutation.
  - apply NoDup_filter, NoDup_cells.
  - apply NoDup_app. split_and!; [apply (inv_nodup HI)| |apply (inv_nodup_mids HI)].
    intros c [_ He]%Hnode [_ Ho]%Hmid. by destruct (even2_not_one_odd c).
  - intros c. unfold passages. rewrite list_elem_of_filter, elem_of_cells, elem_of_app.
    destruct Hwf as (Hw & Hh & Hs). rewrite Hw, Hh.
    assert (wf w h W) as Hwf by done.
    split.
    + intros [Hp Hin]. apply (passage_cell w h) in Hp as [_ Hc]; [|done].
      destruct (parity_cases c) as [He|[Ho|Ho]].
      * left. by apply (inv_nodes HI).
      * right. by apply (inv_mids HI).
      * rewrite (inv_odd HI) in Hc by done. done.
    + intros [Hc|Hc].
      * destruct (Hnode _ Hc) as [Hin He]. split; [|done].
        apply (passage_cell w h); [done|]. split; [done|]. by apply (inv_nodes HI).
      * destruct (Hmid _ Hc) as [Hin Ho]. split; [|done].
        apply (passage_cell w h); [done|]. split; [done|]. by apply (inv_mids HI).
Qed.

Lemma length_passages : length (passages W) = S (2 * length (connects (history W))).
Proof. rewrite passages_perm. simpl. rewrite length_app, !length_fmap. lia. Qed.

Lemma length_nodes : length (nodes W) = S (length (connects (history W))).
Proof. rewrite nodes_perm. simpl. by rewrite length_fmap. Qed.

Lemma length_edges : length (edges W) = length (connects (history W)).
Proof.
  rewrite <- (length_fmap mid_of (edges W)), edges_perm. by rewrite length_fmap.
Qed.

End Graph.

(** ** Example lattices and the accessor *)

Lemma init_1_1 draws fuel : __init__ draws fuel 1 1 = Ret maze_1_1.
Proof. destruct fuel; vm_compute; reflexivity. Qed.

Lemma wf_fresh_3_1 a b c : wf 3 1 (fresh 3 1 [[a]; [b]; [c]]).
Proof.
  split_and!; [done..|]. split; [done|].
  intros [|[|[|i]]] row Hi; simplify_eq/=; done.
Qed.

(** The accessor of the lattice is the array read [maze.grid[x][y]]. *)
Lemma grid_get_spec w h W x y :
  wf w h W → 1 ≤ w → 1 ≤ h →
  grid_get x y W =
    (if decide (- w ≤ x < w ∧ - h ≤ y < h) then Ret (cell W (x `mod` w, y `mod` h))
     else Raise IndexError, W).
Proof.
  intros Hwf Hw Hh. pose proof Hwf as (_ & _ & Hs).
  unfold grid_get. rewrite (getitem_spec w h) by (done || lia).
  case_decide as Hin; [|done].
  assert (inb w h (x `mod` w, y `mod` h)) as Hm.
  { unfold inb; simpl. split; apply Z.mod_pos_bound; lia. }
  destruct (getitem_inb _ _ _ _ _ Hs Hm) as [b Hb].
  unfold cell. simpl. by rewrite Hb.
Qed.

(** ** Every cell with both coordinates even is carved *)

Lemma elem_of_evens w h c : c ∈ evens w h ↔ inb w h c ∧ even2 c.
Proof.
  unfold evens. rewrite list_elem_of_fmap. split.
  - intros ([x y] & -> & Hin%elem_of_cells). unfold inb, even2 in *; simpl in *.
    split; zlia.
  - intros [Hin He]. exists (c.1 `div` 2, c.2 `div` 2). split.
    + destruct c as [x y]. unfold even2 in He; simpl in *. f_equal; zlia.
    + apply elem_of_cells. unfold inb, even2 in *; simpl in *. zlia.
Qed.

Lemma NoDup_evens w h : NoDup (evens w h).
Proof.
  apply NoDup_fmap_2; [|apply NoDup_cells].
  intros [a b] [c d] [= H1 H2]. f_equal; lia.
Qed.

Lemma length_evens w h :
  0 ≤ w → 0 ≤ h → length (evens w h) = Z.to_nat (((w + 1) `div` 2) * ((h + 1) `div` 2)).
Proof.
  intros Hw Hh. unfold evens. rewrite length_fmap, length_cells; [done|zlia..].
Qed.

Section Complete.
Variable draws : nat → nat.
Variables w h : Z.
Hypothesis w_pos : 1 ≤ w.
Hypothesis h_pos : 1 ≤ h.

(** The prelude of [__generate] establishes [Inv2]. *)
Lemma init_spec2 W0 s W1 :
  wf w h W0 → (∀ c, inb w h c → cell W0 c = false) →
  history W0 = [] → consumed W0 = O →
  generate_init W0 = (Ret s, W1) → Inv2 w h s W1.
Proof.
  intros Hwf Hwalls Hhist Hcons. unfold generate_init.
  assert (inb w h (0, 0)) as H0 by (unfold inb; simpl; lia).
  destruct (grid_set_inb w h W0 0 0 true Hwf H0) as (W & Hset & Hwf1 & Hc1 & Hh1 & Hcell1).
  destruct (frontier_spec w h W 0 0 Hwf1) as (fs & Hfs & Hfsc).
  unfold bind. rewrite Hset, Hfs. unfold record, ret. intros [= <- <-]. split.
  - intros p c Hp Hpe Hpc Hc Hd Hcw.
    change (cell W p = true) in Hpc. change (cell W c = false) in Hcw.
    rewrite Hcell1 in Hpc by done. case_decide as Hp0; [subst p|].
    + apply elem_of_union_l. apply Hfsc. done.
    + rewrite Hwalls in Hpc by done. done.
  - simpl. rewrite Hh1, Hhist. simpl. lia.
Qed.

(** One carving pass keeps [Inv2]. *)
Lemma Inv2_step s W s' W' c n ns fs :
  Inv w h s W → Inv2 w h s W → carving w h s W s' W' c n ns fs → Inv2 w h s' W'.
Proof.
  intros HI HI2 Hcv.
  destruct (inv_s HI c (cv_pop Hcv)) as (Hcin & Hceven & Hcwall & _).
  pose proof (proj1 (cv_ns Hcv n) (cv_n Hcv)) as (_ & Hnin & Hd & Hnpass).
  pose proof (dist2_mid_one_odd _ _ Hd Hceven) as Hmodd.
  pose proof (cv_cell Hcv) as Hcell.
  split.
  - intros p d Hp Hpe Hpc Hdin Hpd Hdw. rewrite (cv_s' Hcv).
    destruct (decide (p = c)) as [->|Hpc'].
    + apply elem_of_union_l. apply (cv_fs Hcv). done.
    + apply elem_of_union_r. apply elem_of_difference.
      rewrite Hcell in Hpc, Hdw by done.
      destruct (decide (p = c ∨ p = mid c n)) as [[->| ->]|_];
        [done|by destruct (even2_not_one_odd (mid c n))|].
      destruct (decide (d = c ∨ d = mid c n)) as [|Hdec]; [done|].
      split; [by eapply (inv_complete HI2 p d)|].
      rewrite elem_of_singleton. intros ->. apply Hdec. by left.
  - rewrite (cv_consumed Hcv), (cv_hist Hcv). simpl. rewrite (inv_consumed HI2). lia.
Qed.

(** Whatever the fuel, a loop that returns leaves [Inv2] with an empty
    working set. *)
Lemma while_returns2 fuel s W W' :
  Inv w h s W → Inv2 w h s W →
  generate_while draws fuel s W = (Ret (), W') → Inv2 w h ∅ W'.
Proof.
  revert s W. induction fuel as [|fuel IH]; intros s W HI HI2; simpl.
  - case_bool_decide as Hs; [subst; by intros [= <-]|]. done.
  - case_bool_decide as Hs; [subst; by intros [= <-]|].
    destruct (body_spec draws w h s W (inv_wf HI) Hs)
      as (s' & W1 & c & n & ns & fs & Hb & Hcv).
    { intros c Hc. destruct (inv_s HI c Hc) as (? & _ & _ & ?). done. }
    unfold bind. rewrite Hb. apply IH.
    + by eapply Inv_step.
    + by eapply Inv2_step.
Qed.

Lemma init_Inv2 fuel W :
  __init__ draws fuel w h = Ret W → Inv2 w h ∅ W.
Proof.
  destruct (np_zeros_shaped w h) as (a & Ha & Hs & Hwalls); [lia..|].
  set (W0 := fresh w h a).
  assert (wf w h W0) as Hwf0 by done.
  assert (∀ c, inb w h c → cell W0 c = false) as Hw0.
  { intros [x y] Hc. unfold cell. simpl. by rewrite Hwalls. }
  destruct (init_spec w h W0 w_pos h_pos Hwf0 Hw0) as (s & W1 & Hinit & HI & _); [done|].
  pose proof (init_spec2 W0 s W1 Hwf0 Hw0 eq_refl eq_refl Hinit) as HI2.
  unfold __init__. rewrite Ha. fold W0. unfold __generate, bind. rewrite Hinit.
  destruct (generate_while draws fuel s W1) as [[[]| |] W'] eqn:Hrun; try done.
  intros [= <-]. by eapply while_returns2.
Qed.

(** With an empty working set the passages with both coordinates even
    are all the cells with both coordinates even. *)
Lemma complete_evens W c :
  Inv w h ∅ W → Inv2 w h ∅ W → inb w h c → even2 c → cell W c = true.
Proof.
  clear draws. intros HI HI2.
  assert (∀ p d, inb w h p → even2 p → cell W p = true → inb w h d → dist2 p d →
                 cell W d = true) as Hnext.
  { intros p d Hp Hpe Hpc Hd Hpd. destruct (cell W d) eqn:E; [done|].
    by destruct (not_elem_of_empty (C := gset coord) d); eapply (inv_complete HI2 p d). }
  assert (cell W (0, 0) = true) as H0.
  { apply (inv_nodes HI); [unfold inb; simpl; lia|done|by left]. }
  assert (∀ a b : nat, inb w h (2 * Z.of_nat a, 2 * Z.of_nat b) →
                       cell W (2 * Z.of_nat a, 2 * Z.of_nat b) = true) as Hall.
  { intros a. induction a as [|a IHa]; intros b.
    - induction b as [|b IHb]; intros Hin; [done|].
      apply (Hnext (2 * Z.of_nat 0, 2 * Z.of_nat b)).
      + unfold inb in *; simpl in *; lia.
      + unfold even2; simpl; zlia.
      + apply IHb. unfold inb in *; simpl in *; lia.
      + done.
      + unfold dist2; simpl. lia.
    - intros Hin. apply (Hnext (2 * Z.of_nat a, 2 * Z.of_nat b)).
      + unfold inb in *; simpl in *; lia.
      + unfold even2; simpl; zlia.
      + apply IHa. unfold inb in *; simpl in *; lia.
      + done.
      + unfold dist2; simpl. lia. }
  intros Hin He. destruct c as [x y]. unfold inb, even2 in *; simpl in *.
  replace x with (2 * Z.of_nat (Z.to_nat (x `div` 2))) by zlia.
  replace y with (2 * Z.of_nat (Z.to_nat (y `div` 2))) by zlia.
  apply Hall. unfold inb; simpl. zlia.
Qed.

(** The nodes are the cells with both coordinates even, each once. *)
Lemma nodes_evens W : Inv w h ∅ W → Inv2 w h ∅ W → nodes W ≡ₚ evens w h.
Proof.
  intros HI HI2. pose proof (inv_wf HI) as Hwf.
  apply NoDup_Permutation.
  - apply NoDup_filter, NoDup_cells.
  - apply NoDup_evens.
  - intros c. rewrite (elem_of_nodes W), elem_of_evens.
    rewrite (passage_cell w h) by done. split; [tauto|].
    intros [Hin He]. split_and!; [done| |done]. by apply complete_evens.
Qed.

End Complete.

(** ** Writes through Python's index rule *)

Lemma setitem_spec w h a x y v :
  shaped w h a → 0 ≤ w → 0 ≤ h →
  setitem a x y v =
    if decide (indexable w h (x, y)) then setitem a (x `mod` w) (y `mod` h) v
    else None.
Proof.
  intros [Hlen Hrows] Hw Hh. unfold indexable; simpl.
  destruct (decide (- w ≤ x < w ∧ - h ≤ y < h)) as [[Hx Hy]|Hn].
  - assert (0 ≤ x `mod` w < w) as Hxm by (apply Z.mod_pos_bound; lia).
    assert (0 ≤ y `mod` h < h) as Hym by (apply Z.mod_pos_bound; lia).
    unfold setitem. rewrite !py_index_spec, !Hlen, !Z2Nat.id by lia.
    rewrite (decide_True (P := - w ≤ x < w)) by done.
    rewrite (decide_True (P := - w ≤ x `mod` w < w)) by lia. simpl.
    rewrite Z.mod_mod by lia.
    destruct (a !! Z.to_nat (x `mod` w)) as [row|] eqn:Hrow; simpl; [|done].
    rewrite !py_index_spec, !(Hrows _ _ Hrow), !Z2Nat.id by lia.
    rewrite (decide_True (P := - h ≤ y < h)) by done.
    rewrite (decide_True (P := - h ≤ y `mod` h < h)) by lia. simpl.
    by rewrite Z.mod_mod by lia.
  - apply setitem_None. rewrite (getitem_spec w h) by done.
    by rewrite decide_False.
Qed.

Lemma inb_wrap w h c : 1 ≤ w → 1 ≤ h → inb w h (wrap w h c).
Proof. intros Hw Hh. unfold inb, wrap; simpl. split; apply Z.mod_pos_bound; lia. Qed.

Lemma wrap_inb w h c : inb w h c → wrap w h c = c.
Proof.
  destruct c as [x y]. intros [Hx Hy]; simpl in *. unfold wrap; simpl.
  by rewrite !Z.mod_small by lia.
Qed.

Lemma inb_indexable w h c : inb w h c → indexable w h c.
Proof. unfold inb, indexable. lia. Qed.

(** [self.grid[x][y] = v] for any [x] and [y]: a legal index pair writes
    the cell it denotes and nothing else, any other raises [IndexError] and
    writes nothing. *)
Lemma grid_set_spec w h W x y v :
  wf w h W → 1 ≤ w → 1 ≤ h →
  if decide (indexable w h (x, y)) then
    ∃ W', grid_set x y v W = (Ret (), W') ∧ wf w h W' ∧
          consumed W' = consumed W ∧ history W' = history W ∧
          ∀ c, inb w h c →
            cell W' c = if decide (c = wrap w h (x, y)) then v else cell W c
  else grid_set x y v W = (Raise IndexError, W).
Proof.
  intros Hwf Hw Hh. pose proof Hwf as (_ & _ & Hs).
  case_decide as Hin.
  - destruct (grid_set_inb w h W (x `mod` w) (y `mod` h) v Hwf (inb_wrap w h (x, y) Hw Hh))
      as (W' & Hset & Hrest).
    exists W'. split; [|done].
    revert Hset. unfold grid_set. rewrite (setitem_spec w h _ x y) by (done || lia).
    by rewrite decide_True.
  - unfold grid_set. rewrite (setitem_spec w h) by (done || lia).
    by rewrite decide_False.
Qed.

(** ** The connectivity graph of the lattice *)

(** Moves of 2 from the origin stay on the cells of the lattice with both
    coordinates even. *)
Lemma lattice2_evens w h c :
  1 ≤ w → 1 ≤ h → rtc (lattice2 w h) (0, 0) c → inb w h c ∧ even2 c.
Proof.
  intros Hw Hh. revert c. apply (rtc_ind_r (λ c, inb w h c ∧ even2 c)).
  - split; [unfold inb; simpl; lia|done].
  - intros a b _ (_ & Hb & Hd) [_ Hea]. split; [done|]. by eapply dist2_even2.
Qed.

Lemma hop_lattice2 w h W a b : wf w h W → hop W a b → lattice2 w h a b.
Proof.
  intros Hwf (Ha & Hb & Hd & _).
  apply (passage_cell w h) in Ha as [Ha _]; [|done].
  apply (passage_cell w h) in Hb as [Hb _]; [|done]. done.
Qed.

(** * The claims *)

(** C1.  For every width and height of at least 1 and every sequence of
    random draws the constructor returns, and in the lattice it returns
    the origin [(0, 0)] is a passage and every passage is reachable from it
    by moves between passages that share a side and, when both its
    coordinates are even, by hops of exactly 2 along one axis over a
    passage. *)
Theorem generate_connected draws w h :
  1 ≤ w → 1 ≤ h →
  ∃ W, (∀ fuel, (Z.to_nat (w * h) ≤ fuel)%nat → __init__ draws fuel w h = Ret W) ∧
       passage W (0, 0) ∧
       (∀ c, passage W c → rtc (step4 W) (0, 0) c) ∧
       (∀ c, passage W c → even2 c → rtc (hop W) (0, 0) c).
Proof.
  intros Hw Hh. destruct (init_returns draws w h Hw Hh) as (W & HI & Hret).
  exists W. split_and!; [done|..].
  - by apply (Inv_passage_origin w h Hw Hh ∅ W).
  - intros c. by eapply Inv_path4.
  - intros c. by eapply Inv_hops.
Qed.

Lemma generate_connected_witness :
  ∃ W, (∀ fuel, (Z.to_nat (3 * 3) ≤ fuel)%nat → __init__ (λ _, O) fuel 3 3 = Ret W) ∧
       passage W (0, 0) ∧
       (∀ c, passage W c → rtc (step4 W) (0, 0) c) ∧
       (∀ c, passage W c → even2 c → rtc (hop W) (0, 0) c).
Proof. apply (generate_connected (λ _, O) 3 3); lia. Defined.

(** C2.  For every width and height of at least 1 and every sequence of
    random draws the carved passages form a spanning tree of the cells
    that hops from the origin reach.  The nodes are those cells, and there
    is one edge fewer than nodes.  The nodes are as many as the passes of
    the loop body that found a non-empty neighbour set, plus one for the
    origin: each such pass called [__connect] once, which carved one node,
    the popped cell, and the cell halfway to the chosen neighbour, so the
    passages are twice as many as those passes, plus one.  Every node but
    the origin was the first argument of exactly one call of [__connect],
    which joined it by a hop to the neighbour chosen when it was carved;
    the origin was the first argument of none.  The tree spans the
    connectivity graph: the nodes are all the cells that moves of 2 along
    one axis inside the lattice reach from the origin, which are the cells
    of the lattice with both coordinates even, each once. *)
Theorem generate_spanning_tree draws w h :
  1 ≤ w → 1 ≤ h →
  ∃ W, (∀ fuel, (Z.to_nat (w * h) ≤ fuel)%nat → __init__ draws fuel w h = Ret W) ∧
       (∀ c, c ∈ nodes W ↔ rtc (lattice2 w h) (0, 0) c) ∧
       (∀ c, c ∈ nodes W ↔ inb w h c ∧ even2 c) ∧
       NoDup (nodes W) ∧
       (∀ c, c ∈ nodes W ↔ rtc (hop W) (0, 0) c) ∧
       S (length (edges W)) = length (nodes W) ∧
       length (nodes W) = S (found_neighbours (history W)) ∧
       length (connects (history W)) = found_neighbours (history W) ∧
       length (passages W) = S (2 * found_neighbours (history W)) ∧
       (∀ c ns n fs s, Iteration c ns n fs s ∈ history W →
          ∃ p, n = Some p ∧ p ∈ ns) ∧
       (∀ c, c ∈ nodes W → c ≠ (0, 0) →
          ∃ n, (c, n) ∈ connects (history W) ∧ hop W c n ∧
               ∀ n', (c, n') ∈ connects (history W) → n' = n) ∧
       (∀ n, ((0, 0), n) ∉ connects (history W)).
Proof.
  intros Hw Hh. destruct (init_returns draws w h Hw Hh) as (W & HI & Hret).
  pose proof (init_Inv2 draws w h Hw Hh _ W (Hret _ (le_n _))) as HI2.
  pose proof (inv_wf HI) as Hwf.
  destruct (inv_count HI) as [Hlen Hfound].
  pose proof (inv_nodup HI) as [H0 Hnd]%NoDup_cons.
  assert (∀ c, c ∈ nodes W ↔ inb w h c ∧ even2 c) as Hnodes.
  { intros c. by rewrite (nodes_evens w h Hw Hh W HI HI2), elem_of_evens. }
  exists W. split_and!; [done| |done|..].
  - intros c. split.
    + intros Hc%(nodes_reachable w h Hw Hh ∅ W HI).
      eapply rtc_subrel; [|exact Hc]. intros a b. by apply hop_lattice2.
    + intros Hc. apply Hnodes. by apply lattice2_evens.
  - rewrite (nodes_evens w h Hw Hh W HI HI2). apply NoDup_evens.
  - intros c. apply (nodes_reachable w h Hw Hh ∅ W HI).
  - by rewrite (length_edges w h ∅ W HI), (length_nodes w h Hw Hh ∅ W HI).
  - rewrite (length_nodes w h Hw Hh ∅ W HI). congruence.
  - congruence.
  - rewrite (length_passages w h Hw Hh ∅ W HI). congruence.
  - intros c ns n fs s Hin.
    pose proof (inv_events HI) as Hev. rewrite Forall_forall in Hev.
    destruct (Hev _ Hin) as (_ & _ & (p & -> & Hp & _) & _). by exists p.
  - intros c Hc Hc0.
    rewrite (nodes_perm w h Hw Hh ∅ W HI) in Hc.
    apply elem_of_cons in Hc as [->|Hc]; [done|].
    apply list_elem_of_fmap in Hc as ([c' n] & -> & Hin). simpl.
    exists n. split_and!; [done| |].
    + destruct (inv_connects HI _ _ Hin) as (?&?&?&?&?&?&?).
      unfold hop. rewrite !(passage_cell w h) by done.
      split_and!; auto using dist2_mid_inb.
      apply (inv_mids HI); auto using dist2_mid_inb, dist2_mid_one_odd.
      apply list_elem_of_fmap. by exists (c', n).
    + intros n' Hin'. by eapply NoDup_fst_unique.
  - intros n Hin. apply H0. apply list_elem_of_fmap. by exists ((0, 0), n).
Qed.

Lemma generate_spanning_tree_witness :
  ∃ W, (∀ fuel, (Z.to_nat (5 * 3) ≤ fuel)%nat → __init__ (λ k, k) fuel 5 3 = Ret W) ∧
       (∀ c, c ∈ nodes W ↔ rtc (lattice2 5 3) (0, 0) c) ∧
       (∀ c, c ∈ nodes W ↔ inb 5 3 c ∧ even2 c) ∧
       NoDup (nodes W) ∧
       (∀ c, c ∈ nodes W ↔ rtc (hop W) (0, 0) c) ∧
       S (length (edges W)) = length (nodes W) ∧
       length (nodes W) = S (found_neighbours (history W)) ∧
       length (connects (history W)) = found_neighbours (history W) ∧
       length (passages W) = S (2 * found_neighbours (history W)) ∧
       (∀ c ns n fs s, Iteration c ns n fs s ∈ history W →
          ∃ p, n = Some p ∧ p ∈ ns) ∧
       (∀ c, c ∈ nodes W → c ≠ (0, 0) →
          ∃ n, (c, n) ∈ connects (history W) ∧ hop W c n ∧
               ∀ n', (c, n') ∈ connects (history W) → n' = n) ∧
       (∀ n, ((0, 0), n) ∉ connects (history W)).
Proof. apply (generate_spanning_tree (λ k, k) 5 3); lia. Defined.

(** C3.  For every width and height of at least 1 and every sequence of
    random draws the generation loop terminates: the constructor returns
    with any fuel of at least [width * height], the working set is empty
    then, and the loop body ran at most [4 * width * height] times. *)
Theorem generate_terminates draws w h :
  1 ≤ w → 1 ≤ h →
  ∃ W, (∀ fuel, (Z.to_nat (w * h) ≤ fuel)%nat → __init__ draws fuel w h = Ret W) ∧
       working_set (history W) = ∅ ∧
       Z.of_nat (iterations (history W)) ≤ 4 * w * h.
Proof.
  intros Hw Hh. destruct (init_returns draws w h Hw Hh) as (W & HI & Hret).
  exists W. split_and!; [done|apply (inv_ws HI)|].
  pose proof (iterations_total w h Hw Hh _ _ HI). nia.
Qed.

Lemma generate_terminates_witness :
  ∃ W, (∀ fuel, (Z.to_nat (5 * 4) ≤ fuel)%nat → __init__ (λ k, k) fuel 5 4 = Ret W) ∧
       working_set (history W) = ∅ ∧
       Z.of_nat (iterations (history W)) ≤ 4 * 5 * 4.
Proof. apply (generate_terminates (λ k, k) 5 4); lia. Defined.

(** C4, the claim as stated does not hold: no run of the constructor,
    whatever the dimensions, the draws and the fuel, has a pass of the loop
    body in which the popped cell has no passage at distance 2. *)
Lemma no_pop_without_neighbour :
  ¬ ∃ draws fuel w h W c ns n fs s,
      __init__ draws fuel w h = Ret W ∧
      Iteration c ns n fs s ∈ history W ∧ ns = ∅.
Proof.
  intros (draws & fuel & w & h & W & c & ns & n & fs & s & Hret & Hin & Hns).
  destruct (decide (1 ≤ w ∧ 1 ≤ h)) as [[Hw Hh]|Hdim].
  - pose proof (init_Inv _ _ _ _ _ Hw Hh Hret) as HI.
    pose proof (inv_events HI) as Hev.
    rewrite Forall_forall in Hev. destruct (Hev _ Hin) as (_ & Hne & _). done.
  - rewrite init_raises in Hret by done. done.
Qed.

(** C4, amended.  For every width and height of at least 1 and every
    sequence of random draws, every cell popped from the working set has a
    passage at distance 2 when it is processed, is connected to one of
    them, and is a passage of the generated lattice together with the cell
    halfway.  The branch for a popped cell without such a passage exists
    (on a working set none of whose cells has one the loop body carves
    nothing and still adds the frontier of the popped cell to the working
    set), and no run takes it. *)
Theorem popped_cell_has_neighbour draws w h :
  1 ≤ w → 1 ≤ h →
  (∃ W, (∀ fuel, (Z.to_nat (w * h) ≤ fuel)%nat → __init__ draws fuel w h = Ret W) ∧
        ∀ c ns n fs s, Iteration c ns n fs s ∈ history W →
          ns ≠ ∅ ∧ ∃ p, n = Some p ∧ p ∈ ns ∧ passage W c ∧ passage W (mid c p)) ∧
  (∀ s W, wf w h W → s ≠ ∅ →
     (∀ c p, c ∈ s → inb w h p → dist2 c p → cell W p = false) →
     ∃ c fs,
       c ∈ s ∧
       (∀ p, p ∈ fs ↔ inb w h c ∧ inb w h p ∧ dist2 c p ∧ cell W p = false) ∧
       generate_body draws s W =
         (Ret (fs ∪ (s ∖ {[ c ]})),
          {| self := self W; consumed := S (consumed W);
             history := Iteration c ∅ None fs (fs ∪ (s ∖ {[ c ]})) :: history W |})).
Proof.
  intros Hw Hh. split; [|apply body_no_neighbour].
  destruct (init_returns draws w h Hw Hh) as (W & HI & Hret).
  exists W. split; [done|]. intros c ns n fs s Hin.
  pose proof (inv_events HI) as Hev. rewrite Forall_forall in Hev.
  destruct (Hev _ Hin) as (_ & Hne & (p & -> & Hp & Hm) & _).
  split; [done|]. exists p. split_and!; [done..| |].
  - assert ((c, p) ∈ connects (history W)) as Hcp.
    { apply elem_of_connects. by exists ns, fs, s. }
    destruct (inv_connects HI _ _ Hcp) as (?&?&?&?&?&?&?).
    by apply (passage_cell w h); [apply (inv_wf HI)|].
  - assert ((c, p) ∈ connects (history W)) as Hcp.
    { apply elem_of_connects. by exists ns, fs, s. }
    destruct (inv_connects HI _ _ Hcp) as (?&?&?&?&?&?&?).
    apply (passage_cell w h); [apply (inv_wf HI)|].
    split; [by apply dist2_mid_inb|].
    apply (inv_mids HI); [by apply dist2_mid_inb|by apply dist2_mid_one_odd|].
    apply list_elem_of_fmap. by exists (c, p).
Qed.

Lemma popped_cell_has_neighbour_witness :
  (∃ W, (∀ fuel, (Z.to_nat (3 * 3) ≤ fuel)%nat → __init__ (λ _, O) fuel 3 3 = Ret W) ∧
        ∀ c ns n fs s, Iteration c ns n fs s ∈ history W →
          ns ≠ ∅ ∧ ∃ p, n = Some p ∧ p ∈ ns ∧ passage W c ∧ passage W (mid c p)) ∧
  (∀ s W, wf 3 3 W → s ≠ ∅ →
     (∀ c p, c ∈ s → inb 3 3 p → dist2 c p → cell W p = false) →
     ∃ c fs,
       c ∈ s ∧
       (∀ p, p ∈ fs ↔ inb 3 3 c ∧ inb 3 3 p ∧ dist2 c p ∧ cell W p = false) ∧
       generate_body (λ _, O) s W =
         (Ret (fs ∪ (s ∖ {[ c ]})),
          {| self := self W; consumed := S (consumed W);
             history := Iteration c ∅ None fs (fs ∪ (s ∖ {[ c ]})) :: history W |})).
Proof. apply (popped_cell_has_neighbour (λ _, O) 3 3); lia. Defined.

(** C5, the claim as stated does not hold: with width 1 and height 1 the
    constructor does not fail, it returns the lattice of one passage. *)
Lemma init_1_1_returns :
  ∃ W, grid (self W) = [[true]] ∧ ∀ draws fuel, __init__ draws fuel 1 1 = Ret W.
Proof. exists maze_1_1. split; [done|]. apply init_1_1. Qed.

(** C5, amended.  No dimension is rejected before generation starts and
    there is no error of the constructor's own.  With width and height of
    at least 1, 1 included, the constructor returns a lattice whose origin
    is a passage.  With a width or height of 0, neither being negative, the
    lattice is allocated and [__generate] raises [IndexError] when it
    carves the origin, which the constructor passes on.  With a negative
    width or height the allocation raises [ValueError]. *)
Theorem init_small_dimensions draws w h :
  (1 ≤ w → 1 ≤ h →
     ∃ W, (∀ fuel, (Z.to_nat (w * h) ≤ fuel)%nat → __init__ draws fuel w h = Ret W) ∧
          passage W (0, 0)) ∧
  (0 ≤ w → 0 ≤ h → w = 0 ∨ h = 0 →
     ∀ fuel, ∃ g, np_zeros w h = Ret g ∧
       __generate draws fuel (fresh w h g) = (Raise IndexError, fresh w h g) ∧
       __init__ draws fuel w h = Raise IndexError) ∧
  (w < 0 ∨ h < 0 →
     np_zeros w h = Raise ValueError ∧
     ∀ fuel, __init__ draws fuel w h = Raise ValueError).
Proof.
  split; [|split].
  - intros Hw Hh. destruct (init_returns draws w h Hw Hh) as (W & HI & Hret).
    exists W. split; [done|]. by apply (Inv_passage_origin w h Hw Hh ∅ W).
  - intros Hw Hh H0 fuel.
    destruct (generate_raises draws fuel w h) as (g & Hg & Hgen); [lia..|].
    exists g. split_and!; [done..|].
    rewrite init_raises by lia. by rewrite decide_False by lia.
  - intros Hneg. split.
    + unfold np_zeros. destruct (Z.ltb_spec w 0), (Z.ltb_spec h 0); simpl; try done; lia.
    + intros fuel. rewrite init_raises by lia. by rewrite decide_True.
Qed.

Lemma init_small_dimensions_witness :
  (∃ W, (∀ fuel, (Z.to_nat (1 * 1) ≤ fuel)%nat → __init__ (λ _, O) fuel 1 1 = Ret W) ∧
        passage W (0, 0)) ∧
  (∀ fuel, ∃ g, np_zeros 0 5 = Ret g ∧
     __generate (λ _, O) fuel (fresh 0 5 g) = (Raise IndexError, fresh 0 5 g) ∧
     __init__ (λ _, O) fuel 0 5 = Raise IndexError) ∧
  (np_zeros (-1) 5 = Raise ValueError ∧
   ∀ fuel, __init__ (λ _, O) fuel (-1) 5 = Raise ValueError).
Proof.
  split; [|split].
  - apply (init_small_dimensions (λ _, O) 1 1); lia.
  - apply (init_small_dimensions (λ _, O) 0 5); lia.
  - apply (init_small_dimensions (λ _, O) (-1) 5); lia.
Defined.

(** C6, the claim as stated does not hold: asked for the frontier or the
    neighbours of a coordinate outside the lattice, here [(-1, 0)] on a
    lattice of 3 by 1, both operations return the empty set although the
    in-bounds cell [(1, 0)] at distance exactly 2 is a wall, respectively a
    passage. *)
Lemma frontier_outside_is_empty :
  dist2 (-1, 0) (1, 0) ∧
  (wall walls_3_1 (1, 0) ∧ __frontier (-1) 0 walls_3_1 = (Ret ∅, walls_3_1)) ∧
  (passage middle_3_1 (1, 0) ∧ __neighbours (-1) 0 middle_3_1 = (Ret ∅, middle_3_1)).
Proof.
  split_and!; try reflexivity.
  - unfold dist2; simpl. lia.
  - split; [unfold inb; simpl; lia|reflexivity].
  - split; [unfold inb; simpl; lia|reflexivity].
Qed.

(** C6, amended.  On every lattice and for every coordinate [(x, y)] both
    operations return and leave the world as it is; for [(x, y)] inside
    the lattice [__frontier] returns exactly the walls of the lattice at
    distance exactly 2 along one axis and [__neighbours] exactly the
    passages at that distance; for [(x, y)] outside the lattice both return
    the empty set. *)
Theorem frontier_neighbours_exact w h W x y :
  wf w h W →
  ∃ fs ns,
    __frontier x y W = (Ret fs, W) ∧ __neighbours x y W = (Ret ns, W) ∧
    (∀ c, c ∈ fs ↔ inb w h (x, y) ∧ dist2 (x, y) c ∧ wall W c) ∧
    (∀ c, c ∈ ns ↔ inb w h (x, y) ∧ dist2 (x, y) c ∧ passage W c) ∧
    (¬ inb w h (x, y) → fs = ∅ ∧ ns = ∅).
Proof.
  intros Hwf.
  destruct (frontier_spec w h W x y Hwf) as (fs & Hfs & Hfsc).
  destruct (neighbours_spec w h W x y Hwf) as (ns & Hns & Hnsc).
  exists fs, ns. split_and!; [done..| | |].
  - intros c. rewrite Hfsc, (wall_cell w h) by done. tauto.
  - intros c. rewrite Hnsc, (passage_cell w h) by done. tauto.
  - intros Hout. split; apply leibniz_equiv; intros c; rewrite elem_of_empty.
    + rewrite Hfsc. tauto.
    + rewrite Hnsc. tauto.
Qed.

Lemma frontier_neighbours_exact_witness :
  ∃ fs ns,
    __frontier 0 0 middle_3_1 = (Ret fs, middle_3_1) ∧
    __neighbours 0 0 middle_3_1 = (Ret ns, middle_3_1) ∧
    (∀ c, c ∈ fs ↔ inb 3 1 (0, 0) ∧ dist2 (0, 0) c ∧ wall middle_3_1 c) ∧
    (∀ c, c ∈ ns ↔ inb 3 1 (0, 0) ∧ dist2 (0, 0) c ∧ passage middle_3_1 c) ∧
    (¬ inb 3 1 (0, 0) → fs = ∅ ∧ ns = ∅).
Proof. apply (frontier_neighbours_exact 3 1 middle_3_1 0 0 (wf_fresh_3_1 _ _ _)). Defined.

(** C7, the claim as stated does not hold: on a lattice of 3 by 1 walls
    the coordinates [(2, 0)] and [(4, 0)] differ by exactly 2 along one
    axis, and [__connect(2, 0, 4, 0)] sets the cell [(2, 0)], raises
    [IndexError] at the write of the cell halfway, [(3, 0)], and leaves
    the lattice with one of the two cells set. *)
Lemma connect_partial_write :
  dist2 (2, 0) (4, 0) ∧ wall walls_3_1 (2, 0) ∧
  __connect 2 0 4 0 walls_3_1 = (Raise IndexError, fresh 3 1 [[false]; [false]; [true]]) ∧
  passage (fresh 3 1 [[false]; [false]; [true]]) (2, 0) ∧
  ¬ indexable 3 1 (mid (2, 0) (4, 0)).
Proof.
  split_and!.
  - unfold dist2; simpl. lia.
  - split; [unfold inb; simpl; lia|reflexivity].
  - reflexivity.
  - split; [unfold inb; simpl; lia|reflexivity].
  - unfold indexable, mid; simpl. intros [[_ H] _]. by vm_compute in H.
Qed.

(** C7, amended.  [__connect] checks nothing itself.  For the coordinate
    of a cell of the lattice and a coordinate that differs from it by
    exactly 2 along exactly one axis: when the second is a coordinate of
    the lattice too, as it is at the only call, [__connect] returns, so
    both of its writes took place: afterwards the first cell and the cell
    halfway are passages, every other cell of the lattice is as before,
    and nothing else of the world changed.  More generally, when the
    coordinate halfway is a legal index pair the call returns and has set
    the first cell and the cell that index pair denotes, a negative index
    counting from the far edge.  When it is none, the call raises
    [IndexError] after its first write: the first cell is set alone and
    every other cell is as before. *)
Theorem connect_carves w h W x1 y1 x2 y2 :
  wf w h W → inb w h (x1, y1) → dist2 (x1, y1) (x2, y2) →
  (inb w h (x2, y2) →
   ∃ W', __connect x1 y1 x2 y2 W = (Ret (), W') ∧
         wf w h W' ∧
         passage W' (x1, y1) ∧ passage W' (mid (x1, y1) (x2, y2)) ∧
         (∀ c, inb w h c → c ≠ (x1, y1) → c ≠ mid (x1, y1) (x2, y2) →
            cell W' c = cell W c) ∧
         consumed W' = consumed W ∧ history W' = history W) ∧
  (indexable w h (mid (x1, y1) (x2, y2)) →
   ∃ W', __connect x1 y1 x2 y2 W = (Ret (), W') ∧
         wf w h W' ∧
         passage W' (x1, y1) ∧ passage W' (wrap w h (mid (x1, y1) (x2, y2))) ∧
         (∀ c, inb w h c → c ≠ (x1, y1) → c ≠ wrap w h (mid (x1, y1) (x2, y2)) →
            cell W' c = cell W c) ∧
         consumed W' = consumed W ∧ history W' = history W) ∧
  (¬ indexable w h (mid (x1, y1) (x2, y2)) →
   ∃ W', __connect x1 y1 x2 y2 W = (Raise IndexError, W') ∧
         wf w h W' ∧
         passage W' (x1, y1) ∧
         (∀ c, inb w h c → c ≠ (x1, y1) → cell W' c = cell W c) ∧
         consumed W' = consumed W ∧ history W' = history W).
Proof.
  intros Hwf H1 Hd.
  assert (1 ≤ w ∧ 1 ≤ h) as [Hw Hh] by (unfold inb in H1; simpl in H1; lia).
  split_and!.
  - intros H2.
    destruct (connect_spec w h W x1 y1 x2 y2 Hwf H1 H2 Hd)
      as (W' & Hconn & Hwf' & Hcons & Hhist & Hcell).
    exists W'. split_and!; try done.
    + apply (passage_cell w h); [done|]. split; [done|].
      rewrite Hcell by done. rewrite decide_True; auto.
    + assert (inb w h (mid (x1, y1) (x2, y2))) as Hm by (by apply dist2_mid_inb).
      apply (passage_cell w h); [done|]. split; [done|].
      rewrite Hcell by done. rewrite decide_True; auto.
    + intros c Hc Hn1 Hn2. rewrite Hcell by done. rewrite decide_False; tauto.
  - intros Hm. unfold __connect, bind. cbv zeta.
    destruct (grid_set_inb w h W x1 y1 true Hwf H1) as (W1 & -> & Hwf1 & Hc1 & Hh1 & Hcell1).
    pose proof (grid_set_spec w h W1 ((x1 + x2) `div` 2) ((y1 + y2) `div` 2) true Hwf1 Hw Hh)
      as H2.
    change ((x1 + x2) `div` 2, (y1 + y2) `div` 2) with (mid (x1, y1) (x2, y2)) in H2.
    rewrite decide_True in H2 by done.
    destruct H2 as (W2 & -> & Hwf2 & Hc2 & Hh2 & Hcell2).
    pose proof (inb_wrap w h (mid (x1, y1) (x2, y2)) Hw Hh) as Hmw.
    exists W2. split_and!; [done..| | | |congruence|congruence].
    + apply (passage_cell w h); [done|]. split; [done|].
      rewrite Hcell2, Hcell1 by done. repeat case_decide; done.
    + apply (passage_cell w h); [done|]. split; [done|].
      rewrite Hcell2 by done. by rewrite decide_True.
    + intros c Hc Hn1 Hn2. rewrite Hcell2, Hcell1 by done.
      by rewrite !decide_False.
  - intros Hm. unfold __connect, bind. cbv zeta.
    destruct (grid_set_inb w h W x1 y1 true Hwf H1) as (W1 & -> & Hwf1 & Hc1 & Hh1 & Hcell1).
    pose proof (grid_set_spec w h W1 ((x1 + x2) `div` 2) ((y1 + y2) `div` 2) true Hwf1 Hw Hh)
      as H2.
    change ((x1 + x2) `div` 2, (y1 + y2) `div` 2) with (mid (x1, y1) (x2, y2)) in H2.
    rewrite decide_False in H2 by done. rewrite H2.
    exists W1. split_and!; [done..| | |done|done].
    + apply (passage_cell w h); [done|]. split; [done|].
      rewrite Hcell1 by done. by rewrite decide_True.
    + intros c Hc Hn1. rewrite Hcell1 by done. by rewrite decide_False.
Qed.

Lemma connect_carves_witness :
  (∃ W', __connect 2 0 0 0 walls_3_1 = (Ret (), W') ∧
         wf 3 1 W' ∧
         passage W' (2, 0) ∧ passage W' (mid (2, 0) (0, 0)) ∧
         (∀ c, inb 3 1 c → c ≠ (2, 0) → c ≠ mid (2, 0) (0, 0) →
            cell W' c = cell walls_3_1 c) ∧
         consumed W' = consumed walls_3_1 ∧ history W' = history walls_3_1) ∧
  (∃ W', __connect 0 0 (-2) 0 walls_3_1 = (Ret (), W') ∧
         wf 3 1 W' ∧
         passage W' (0, 0) ∧ passage W' (wrap 3 1 (mid (0, 0) (-2, 0))) ∧
         (∀ c, inb 3 1 c → c ≠ (0, 0) → c ≠ wrap 3 1 (mid (0, 0) (-2, 0)) →
            cell W' c = cell walls_3_1 c) ∧
         consumed W' = consumed walls_3_1 ∧ history W' = history walls_3_1) ∧
  (∃ W', __connect 2 0 4 0 walls_3_1 = (Raise IndexError, W') ∧
         wf 3 1 W' ∧
         passage W' (2, 0) ∧
         (∀ c, inb 3 1 c → c ≠ (2, 0) → cell W' c = cell walls_3_1 c) ∧
         consumed W' = consumed walls_3_1 ∧ history W' = history walls_3_1).
Proof.
  split_and!.
  - destruct (connect_carves 3 1 walls_3_1 2 0 0 0 (wf_fresh_3_1 _ _ _)) as (H & _ & _);
      [unfold inb; simpl; lia|unfold dist2; simpl; lia|].
    apply H. unfold inb; simpl; lia.
  - destruct (connect_carves 3 1 walls_3_1 0 0 (-2) 0 (wf_fresh_3_1 _ _ _)) as (_ & H & _);
      [unfold inb; simpl; lia|unfold dist2; simpl; lia|].
    apply H. unfold indexable, mid; simpl. split; split; by vm_compute.
  - destruct (connect_carves 3 1 walls_3_1 2 0 4 0 (wf_fresh_3_1 _ _ _)) as (_ & _ & H);
      [unfold inb; simpl; lia|unfold dist2; simpl; lia|].
    apply H. unfold indexable, mid; simpl. intros [[_ Hlt] _]. by vm_compute in Hlt.
Defined.

(** C8, the claim as stated does not hold: on the lattice the constructor
    returns for width 1 and height 1 the read at [(-1, -1)], a coordinate
    outside the lattice, does not fail; it returns the state of the cell
    [(0, 0)]. *)
Lemma accessor_wraps_around :
  ∃ W, (∀ draws fuel, __init__ draws fuel 1 1 = Ret W) ∧
       ¬ inb 1 1 (-1, -1) ∧
       grid_get (-1) (-1) W = (Ret true, W).
Proof.
  exists maze_1_1. split_and!; [apply init_1_1| |reflexivity].
  unfold inb; simpl. lia.
Qed.

(** C8, amended.  On every generated lattice the read [grid[x][y]] never
    changes the world; for [(x, y)] inside the lattice it returns the state
    of that cell; for [-width ≤ x < width] and [-height ≤ y < height] it
    returns what the read at [(x mod width, y mod height)] returns, a
    negative index counting from the end; for every other coordinate it
    raises [IndexError]. *)
Theorem accessor_bounds draws w h :
  1 ≤ w → 1 ≤ h →
  ∃ W, (∀ fuel, (Z.to_nat (w * h) ≤ fuel)%nat → __init__ draws fuel w h = Ret W) ∧
       ∀ x y,
         (inb w h (x, y) →
            ∃ b, grid_get x y W = (Ret b, W) ∧
                 (b = true ↔ passage W (x, y)) ∧ (b = false ↔ wall W (x, y))) ∧
         (- w ≤ x < w → - h ≤ y < h →
            grid_get x y W = grid_get (x `mod` w) (y `mod` h) W) ∧
         (¬ (- w ≤ x < w ∧ - h ≤ y < h) → grid_get x y W = (Raise IndexError, W)).
Proof.
  intros Hw Hh. destruct (init_returns draws w h Hw Hh) as (W & HI & Hret).
  pose proof (inv_wf HI) as Hwf.
  exists W. split; [done|]. intros x y. split_and!.
  - intros Hin. exists (cell W (x, y)). split_and!.
    + by apply (grid_get_inb w h).
    + rewrite (passage_cell w h) by done. tauto.
    + rewrite (wall_cell w h) by done. tauto.
  - intros Hx Hy. rewrite !(grid_get_spec w h) by done.
    pose proof (Z.mod_pos_bound x w). pose proof (Z.mod_pos_bound y h).
    rewrite !decide_True by lia. by rewrite !Z.mod_mod by lia.
  - intros Hout. rewrite (grid_get_spec w h) by done. by rewrite decide_False.
Qed.

Lemma accessor_bounds_witness :
  ∃ W, (∀ fuel, (Z.to_nat (3 * 2) ≤ fuel)%nat → __init__ (λ _, O) fuel 3 2 = Ret W) ∧
       ∀ x y,
         (inb 3 2 (x, y) →
            ∃ b, grid_get x y W = (Ret b, W) ∧
                 (b = true ↔ passage W (x, y)) ∧ (b = false ↔ wall W (x, y))) ∧
         (- 3 ≤ x < 3 → - 2 ≤ y < 2 →
            grid_get x y W = grid_get (x `mod` 3) (y `mod` 2) W) ∧
         (¬ (- 3 ≤ x < 3 ∧ - 2 ≤ y < 2) → grid_get x y W = (Raise IndexError, W)).
Proof. apply (accessor_bounds (λ _, O) 3 2); lia. Defined.

(** C10.  Every step of generation keeps the parities: the origin and
    every popped cell have both coordinates even, so has every coordinate
    ever put into the working set, and the cell halfway that [__connect]
    carves has exactly one odd coordinate; hence in the generated lattice
    every cell with both coordinates odd is a wall. *)
Theorem parity_invariant draws w h :
  1 ≤ w → 1 ≤ h →
  ∃ W, (∀ fuel, (Z.to_nat (w * h) ≤ fuel)%nat → __init__ draws fuel w h = Ret W) ∧
       Forall event_parity (history W) ∧
       ∀ c, inb w h c → odd2 c → wall W c.
Proof.
  intros Hw Hh. destruct (init_returns draws w h Hw Hh) as (W & HI & Hret).
  exists W. split_and!; [done|..].
  - eapply Forall_impl; [apply (inv_events HI)|].
    intros [c fs s|c ns n fs s]; simpl.
    + intros [-> Hfs]. done.
    + intros (Hc & _ & (p & -> & _ & Hm) & Hfs). split_and!; [done..|].
      by intros ? [= <-].
  - intros c Hc Ho. apply (wall_cell w h); [apply (inv_wf HI)|].
    split; [done|]. by apply (inv_odd HI).
Qed.

Lemma parity_invariant_witness :
  ∃ W, (∀ fuel, (Z.to_nat (4 * 4) ≤ fuel)%nat → __init__ (λ _, 1%nat) fuel 4 4 = Ret W) ∧
       Forall event_parity (history W) ∧
       ∀ c, inb 4 4 c → odd2 c → wall W c.
Proof. apply (parity_invariant (λ _, 1%nat) 4 4); lia. Defined.

(** * Further properties of the generator *)

(** ** What the generated lattice looks like, whatever the draws *)

(** X1.  For every width and height of at least 1 and every sequence of
    random draws, the constructor returns a lattice in which every cell
    with both coordinates even is a passage, so the nodes are exactly those
    cells, and in which every passage with exactly one odd coordinate lies
    halfway between two passages with even coordinates at distance 2: a
    corridor cell never dangles. *)
Theorem generate_fills_lattice draws w h :
  1 ≤ w → 1 ≤ h →
  ∃ W, (∀ fuel, (Z.to_nat (w * h) ≤ fuel)%nat → __init__ draws fuel w h = Ret W) ∧
       (∀ c, inb w h c → even2 c → passage W c) ∧
       nodes W ≡ₚ evens w h ∧
       (∀ m, passage W m → one_odd m →
          ∃ a b, even2 a ∧ even2 b ∧ hop W a b ∧ m = mid a b).
Proof.
  intros Hw Hh. destruct (init_returns draws w h Hw Hh) as (W & HI & Hret).
  pose proof (init_Inv2 draws w h Hw Hh _ W (Hret _ (le_n _))) as HI2.
  pose proof (inv_wf HI) as Hwf.
  exists W. split_and!; [done|..].
  - intros c Hc He. apply (passage_cell w h); [done|]. split; [done|].
    by apply (complete_evens w h Hw Hh).
  - by apply nodes_evens.
  - intros m [Hm Hcell]%(passage_cell w h) Hodd; [|done].
    apply (inv_mids HI) in Hcell; [|done..].
    apply list_elem_of_fmap in Hcell as ([a b] & -> & Hin).
    destruct (inv_connects HI _ _ Hin) as (Ha & Hb & Hae & Hbe & Hd & Hca & Hcb).
    exists a, b. split_and!; [done..| |done].
    unfold hop. rewrite !(passage_cell w h) by done.
    split_and!; auto using dist2_mid_inb.
    apply (inv_mids HI); auto using dist2_mid_inb, dist2_mid_one_odd.
    apply list_elem_of_fmap. by exists (a, b).
Qed.

Lemma generate_fills_lattice_witness :
  ∃ W, (∀ fuel, (Z.to_nat (4 * 5) ≤ fuel)%nat → __init__ (λ k, k) fuel 4 5 = Ret W) ∧
       (∀ c, inb 4 5 c → even2 c → passage W c) ∧
       nodes W ≡ₚ evens 4 5 ∧
       (∀ m, passage W m → one_odd m →
          ∃ a b, even2 a ∧ even2 b ∧ hop W a b ∧ m = mid a b).
Proof. apply (generate_fills_lattice (λ k, k) 4 5); lia. Defined.

(** X2.  The size of the maze depends on the dimensions only.  For every
    width and height of at least 1 and every sequence of random draws, with
    [N] the product of the halves, rounded up, of the width and of the
    height: the lattice has [N] nodes, [N - 1] edges and [2 * N - 1]
    passages, the loop body ran [N - 1] times and [random.choice] was
    called [2 * (N - 1)] times. *)
Theorem generate_counts draws w h :
  1 ≤ w → 1 ≤ h →
  ∃ W, (∀ fuel, (Z.to_nat (w * h) ≤ fuel)%nat → __init__ draws fuel w h = Ret W) ∧
       let N := Z.to_nat (((w + 1) `div` 2) * ((h + 1) `div` 2)) in
       length (nodes W) = N ∧
       S (length (edges W)) = N ∧
       S (length (passages W)) = (2 * N)%nat ∧
       S (iterations (history W)) = N ∧
       (consumed W + 2 = 2 * N)%nat.
Proof.
  intros Hw Hh. destruct (init_returns draws w h Hw Hh) as (W & HI & Hret).
  pose proof (init_Inv2 draws w h Hw Hh _ W (Hret _ (le_n _))) as HI2.
  exists W. split; [done|]. cbv zeta.
  rewrite <- (length_evens w h) by lia.
  rewrite <- (nodes_evens w h Hw Hh W HI HI2).
  rewrite (length_edges w h ∅ W HI), (length_passages w h Hw Hh ∅ W HI),
    (length_nodes w h Hw Hh ∅ W HI), (inv_consumed HI2).
  destruct (inv_count HI) as [-> _]. lia.
Qed.

Lemma generate_counts_witness :
  ∃ W, (∀ fuel, (Z.to_nat (5 * 3) ≤ fuel)%nat → __init__ (λ k, k) fuel 5 3 = Ret W) ∧
       let N := Z.to_nat (((5 + 1) `div` 2) * ((3 + 1) `div` 2)) in
       length (nodes W) = N ∧
       S (length (edges W)) = N ∧
       S (length (passages W)) = (2 * N)%nat ∧
       S (iterations (history W)) = N ∧
       (consumed W + 2 = 2 * N)%nat.
Proof. apply (generate_counts (λ k, k) 5 3); lia. Defined.

(** ** How the three helpers fit together *)

(** X3.  For a coordinate inside the lattice, the frontier and the
    neighbours split the cells of the lattice at distance exactly 2 along
    one axis: the two sets are disjoint, together they are all those cells,
    and there are at most four of them. *)
Theorem frontier_neighbours_partition w h W x y :
  wf w h W → inb w h (x, y) →
  ∃ fs ns,
    __frontier x y W = (Ret fs, W) ∧ __neighbours x y W = (Ret ns, W) ∧
    fs ## ns ∧
    (∀ c, c ∈ fs ∪ ns ↔ inb w h c ∧ dist2 (x, y) c) ∧
    (size (fs ∪ ns) ≤ 4)%nat.
Proof.
  intros Hwf Hin.
  destruct (frontier_spec w h W x y Hwf) as (fs & Hfs & Hfsc).
  destruct (neighbours_spec w h W x y Hwf) as (ns & Hns & Hnsc).
  exists fs, ns. split_and!; [done..| | |].
  - intros c [_ [_ [_ Hf]]]%Hfsc [_ [_ [_ Hn]]]%Hnsc. congruence.
  - intros c. rewrite elem_of_union, Hfsc, Hnsc.
    destruct (cell W c); naive_solver.
  - assert (fs ∪ ns ⊆ {[ (x - 2, y); (x + 2, y); (x, y - 2); (x, y + 2) ]}) as Hsub.
    { intros [a b] [Hc|Hc]%elem_of_union.
      - apply Hfsc in Hc as (_ & _ & Hd & _). unfold dist2 in Hd; simpl in Hd.
        rewrite !elem_of_union, !elem_of_singleton.
        destruct Hd as [[-> [-> | ->]]|[-> [-> | ->]]]; auto.
      - apply Hnsc in Hc as (_ & _ & Hd & _). unfold dist2 in Hd; simpl in Hd.
        rewrite !elem_of_union, !elem_of_singleton.
        destruct Hd as [[-> [-> | ->]]|[-> [-> | ->]]]; auto. }
    apply subseteq_size in Hsub. etrans; [apply Hsub|].
    rewrite !size_union_alt, !size_singleton.
    repeat match goal with
    | |- context [size (?X ∖ ?Y)] =>
        let H := fresh in
        assert (size (X ∖ Y) ≤ size X)%nat as H by (apply subseteq_size; set_solver);
        revert H; generalize (size (X ∖ Y)); intros ? ?
    end.
    rewrite ?size_singleton in *. lia.
Qed.

Lemma frontier_neighbours_partition_witness :
  ∃ fs ns,
    __frontier 0 0 middle_3_1 = (Ret fs, middle_3_1) ∧
    __neighbours 0 0 middle_3_1 = (Ret ns, middle_3_1) ∧
    fs ## ns ∧
    (∀ c, c ∈ fs ∪ ns ↔ inb 3 1 c ∧ dist2 (0, 0) c) ∧
    (size (fs ∪ ns) ≤ 4)%nat.
Proof.
  apply (frontier_neighbours_partition 3 1 middle_3_1 0 0 (wf_fresh_3_1 _ _ _)).
  unfold inb; simpl; lia.
Defined.

(** X4.  The two queries mirror each other: for a passage [p] and a wall
    [c] of the lattice, [c] is in the frontier of [p] exactly when [p] is
    among the neighbours of [c], and that is exactly when the two differ
    by exactly 2 along exactly one axis.  So a cell taken from the
    frontier of a passage has a neighbour for as long as it is a wall. *)
Theorem frontier_neighbours_dual w h W p c :
  wf w h W → passage W p → wall W c →
  ∃ fs ns,
    __frontier p.1 p.2 W = (Ret fs, W) ∧ __neighbours c.1 c.2 W = (Ret ns, W) ∧
    (c ∈ fs ↔ p ∈ ns) ∧ (c ∈ fs ↔ dist2 p c) ∧ (p ∈ ns ↔ dist2 c p).
Proof.
  intros Hwf [Hp Hpc]%(passage_cell w h) [Hc Hcc]%(wall_cell w h); [|done..].
  destruct p as [x y], c as [cx cy]; simpl.
  destruct (frontier_spec w h W x y Hwf) as (fs & Hfs & Hfsc).
  destruct (neighbours_spec w h W cx cy Hwf) as (ns & Hns & Hnsc).
  exists fs, ns. split_and!; [done..| | |].
  - rewrite Hfsc, Hnsc. split.
    + intros (_ & _ & Hd & _). auto using dist2_sym.
    + intros (_ & _ & Hd & _). auto using dist2_sym.
  - rewrite Hfsc. tauto.
  - rewrite Hnsc. tauto.
Qed.

Lemma frontier_neighbours_dual_witness :
  ∃ fs ns,
    __frontier 0 0 (fresh 3 1 [[true]; [false]; [false]]) =
      (Ret fs, fresh 3 1 [[true]; [false]; [false]]) ∧
    __neighbours 2 0 (fresh 3 1 [[true]; [false]; [false]]) =
      (Ret ns, fresh 3 1 [[true]; [false]; [false]]) ∧
    ((2, 0) ∈ fs ↔ (0, 0) ∈ ns) ∧
    ((2, 0) ∈ fs ↔ dist2 (0, 0) (2, 0)) ∧
    ((0, 0) ∈ ns ↔ dist2 (2, 0) (0, 0)).
Proof.
  apply (frontier_neighbours_dual 3 1 (fresh 3 1 [[true]; [false]; [false]])
           (0, 0) (2, 0) (wf_fresh_3_1 _ _ _)).
  - split; [unfold inb; simpl; lia|reflexivity].
  - split; [unfold inb; simpl; lia|reflexivity].
Defined.

(** X5.  [__connect] checks nothing itself: its two writes follow
    Python's index rule.  On a lattice of at least one cell, for any four
    arguments: when the first coordinate is no legal index pair the call
    raises [IndexError] and writes nothing; when it is one but the
    coordinate halfway is not, the first write has taken place by the time
    the second raises [IndexError], so the lattice is left with the first
    cell carved alone; when both are legal the call returns and has carved
    the two cells the index pairs denote, a negative index counting from
    the far edge. *)
Theorem connect_any_arguments w h W x1 y1 x2 y2 :
  wf w h W → 1 ≤ w → 1 ≤ h →
  if decide (indexable w h (x1, y1)) then
    if decide (indexable w h (mid (x1, y1) (x2, y2))) then
      ∃ W', __connect x1 y1 x2 y2 W = (Ret (), W') ∧ wf w h W' ∧
            ∀ p, inb w h p →
              cell W' p =
                if decide (p = wrap w h (x1, y1) ∨ p = wrap w h (mid (x1, y1) (x2, y2)))
                then true else cell W p
    else
      ∃ W', __connect x1 y1 x2 y2 W = (Raise IndexError, W') ∧ wf w h W' ∧
            ∀ p, inb w h p →
              cell W' p = if decide (p = wrap w h (x1, y1)) then true else cell W p
  else __connect x1 y1 x2 y2 W = (Raise IndexError, W).
Proof.
  intros Hwf Hw Hh. unfold __connect, bind. cbv zeta.
  pose proof (grid_set_spec w h W x1 y1 true Hwf Hw Hh) as H1.
  destruct (decide (indexable w h (x1, y1))) as [Hi1|Hi1]; [|by rewrite H1].
  destruct H1 as (W1 & -> & Hwf1 & _ & _ & Hcell1).
  pose proof (grid_set_spec w h W1 ((x1 + x2) `div` 2) ((y1 + y2) `div` 2) true Hwf1 Hw Hh)
    as H2.
  change ((x1 + x2) `div` 2, (y1 + y2) `div` 2) with (mid (x1, y1) (x2, y2)) in H2.
  destruct (decide (indexable w h (mid (x1, y1) (x2, y2)))) as [Hi2|Hi2].
  - destruct H2 as (W2 & -> & Hwf2 & _ & _ & Hcell2).
    exists W2. split_and!; [done..|].
    intros p Hp. rewrite Hcell2, Hcell1 by done.
    repeat case_decide; first [done | exfalso; tauto].
  - rewrite H2. by exists W1.
Qed.

Lemma connect_any_arguments_witness :
  if decide (indexable 3 1 (0, 0)) then
    if decide (indexable 3 1 (mid (0, 0) (-2, 0))) then
      ∃ W', __connect 0 0 (-2) 0 walls_3_1 = (Ret (), W') ∧ wf 3 1 W' ∧
            ∀ p, inb 3 1 p →
              cell W' p =
                if decide (p = wrap 3 1 (0, 0) ∨ p = wrap 3 1 (mid (0, 0) (-2, 0)))
                then true else cell walls_3_1 p
    else
      ∃ W', __connect 0 0 (-2) 0 walls_3_1 = (Raise IndexError, W') ∧ wf 3 1 W' ∧
            ∀ p, inb 3 1 p →
              cell W' p = if decide (p = wrap 3 1 (0, 0)) then true else cell walls_3_1 p
  else __connect 0 0 (-2) 0 walls_3_1 = (Raise IndexError, walls_3_1).
Proof.
  apply (connect_any_arguments 3 1 walls_3_1 0 0 (-2) 0 (wf_fresh_3_1 _ _ _)); lia.
Defined.

(** * The environment *)

(** ** The monad and the loops *)

Lemma called_nil E : called [] E = E.
Proof. destruct E. unfold called; simpl. by rewrite app_nil_r. Qed.

Lemma called_app cs1 cs2 E : called cs2 (called cs1 E) = called (cs1 ++ cs2) E.
Proof. unfold called; simpl. by rewrite app_assoc. Qed.

Lemma for_app {A S} (l1 l2 : list A) (body : A → S → Env S) s E :
  for_ (l1 ++ l2) body s E = bind_env (for_ l1 body s) (for_ l2 body) E.
Proof.
  revert s E. induction l1 as [|a l1 IH]; intros s E; [done|].
  simpl. unfold bind_env.
  destruct (body a s E) as [[s'|e|] E']; [|done..].
  rewrite IH. done.
Qed.

Lemma for_fmap {A B S} (f : A → B) (l : list A) (body : B → S → Env S) s E :
  for_ (f <$> l) body s E = for_ l (λ a, body (f a)) s E.
Proof.
  revert s E. induction l as [|a l IH]; intros s E; [done|].
  simpl. unfold bind_env.
  destruct (body (f a) s E) as [[s'|e|] E']; [|done..]. apply IH.
Qed.

(** Two nested loops visit the pairs of their indices row by row. *)
Lemma for_nested {S} (xs ys : list Z) (body : coord → S → Env S) s E :
  for_ xs (λ i s, for_ ys (λ j s, body (i, j) s) s) s E =
  for_ (x ← xs; (λ y, (x, y)) <$> ys) body s E.
Proof.
  revert s E. induction xs as [|x xs IH]; intros s E; [done|].
  rewrite bind_cons, for_app. simpl. unfold bind_env.
  rewrite for_fmap.
  destruct (for_ ys (λ a, body (x, a)) s E) as [[s'|e|] E']; [|done..]. apply IH.
Qed.

(** ** The scan of the lattice *)

Lemma maze_grid_inb w h W c E :
  wf w h W → inb w h c → maze_grid W c.1 c.2 E = (Ret (cell W c), E).
Proof.
  intros (_ & _ & Hs) Hin. unfold maze_grid, cell. destruct c as [x y].
  destruct (getitem_inb _ _ _ _ _ Hs Hin) as [b Hb]. simpl in *. by rewrite Hb.
Qed.

(** A scan of cells of the lattice returns: it has put a wall on the tile
    of each wall among them, in their order, and remembers the last. *)
Lemma scan_returns w h W l s E :
  wf w h W → Forall (inb w h) l →
  for_ l (scan W) s E =
    (Ret (last_wall W l s),
     called ((λ c, put_obj Wall (c.1 + 1) (c.2 + 1)) <$> filter (wall W) l) E).
Proof.
  intros Hwf Hl. revert s E. induction Hl as [|c l Hc Hl IH]; intros s E.
  - simpl. unfold ret_env, last_wall. by rewrite called_nil.
  - simpl. unfold bind_env, scan at 1, bind_env.
    rewrite (maze_grid_inb w h) by done.
    destruct (cell W c) eqn:Hcell.
    + unfold ret_env. rewrite IH. unfold last_wall.
      rewrite filter_cons_False; [done|].
      intros [_ Hw]%(wall_cell w h); [congruence|done].
    + unfold host, ret_env. rewrite IH, called_app. unfold last_wall.
      rewrite filter_cons_True by (by apply (wall_cell w h)).
      rewrite last_cons. by destruct (last (filter (wall W) l)).
Qed.

(** A scan that comes to a coordinate outside the lattice raises
    [IndexError], having put nothing but walls. *)
Lemma scan_raises w h W l s E :
  wf w h W → 0 ≤ w → 0 ≤ h →
  Forall (λ c : coord, 0 ≤ c.1 ∧ 0 ≤ c.2) l → Exists (λ c, ¬ inb w h c) l →
  ∃ cs, for_ l (scan W) s E = (Raise IndexError, called cs E) ∧
        Forall (λ c, ∃ i j, c = put_obj Wall i j) cs.
Proof.
  intros Hwf Hw Hh Hl Hex. pose proof Hwf as (_ & _ & Hs).
  revert s E Hex. induction Hl as [|c l Hc Hl IH]; intros s E Hex.
  - by apply Exists_nil in Hex.
  - simpl. unfold bind_env, scan at 1, bind_env.
    destruct (decide (inb w h c)) as [Hin|Hout].
    + apply Exists_cons in Hex as [Hex|Hex]; [done|].
      rewrite (maze_grid_inb w h) by done.
      destruct (cell W c).
      * unfold ret_env. by apply IH.
      * unfold host, ret_env.
        destruct (IH (c.2, c.1) (called [put_obj Wall (c.1 + 1) (c.2 + 1)] E) Hex)
          as (cs & -> & Hcs).
        exists (put_obj Wall (c.1 + 1) (c.2 + 1) :: cs). rewrite called_app.
        split; [done|]. constructor; [by eexists _, _|done].
    + exists []. rewrite called_nil. split; [|done].
      unfold maze_grid. rewrite (getitem_spec w h) by done.
      rewrite decide_False; [done|].
      unfold inb in Hout. lia.
Qed.

(** ** The order of the scan *)

Lemma seqZ_sorted m n : StronglySorted Z.lt (seqZ m n).
Proof.
  destruct (decide (0 ≤ n)) as [Hn|Hn]; [|rewrite seqZ_nil by lia; constructor].
  rewrite <- (Z2Nat.id n) by done. generalize (Z.to_nat n). clear. intros k.
  induction k as [|k IH]; [constructor|].
  rewrite seqZ_S. apply StronglySorted_app_2; [|done|repeat constructor].
  intros x1 x2 Hx1%elem_of_seqZ Hx2%list_elem_of_singleton. lia.
Qed.

Lemma cells_sorted w h : StronglySorted lex (cells w h).
Proof.
  unfold cells. pose proof (seqZ_sorted 0 w) as Hs. revert Hs.
  induction (seqZ 0 w) as [|x xs IH]; [constructor|].
  intros [Hx Hs%IH]%StronglySorted_cons.
  rewrite bind_cons. apply StronglySorted_app_2; [|
    |done].
  - intros [a b] [c d] (y0 & [= -> ->] & _)%list_elem_of_fmap
      (x' & (y1 & [= -> ->] & _)%list_elem_of_fmap & Hx')%list_elem_of_bind.
    rewrite Forall_forall in Hx. left. simpl. by apply Hx.
  - apply (StronglySorted_fmap _ Z.lt); [|apply seqZ_sorted].
    intros y1 y2 Hy. right. done.
Qed.

(** The last wall of a scan comes after every other wall. *)
Lemma last_wall_max W l c :
  StronglySorted lex l → last (filter (wall W) l) = Some c →
  c ∈ l ∧ wall W c ∧ ∀ d, d ∈ l → wall W d → d = c ∨ lex d c.
Proof.
  intros Hl Hlast.
  pose proof (last_Some_elem_of _ _ Hlast) as [Hc Hw]%list_elem_of_filter.
  split; [done|]. split; [done|].
  apply last_filter_Some in Hlast as (l1 & l2 & -> & Hl2).
  intros d Hd Hdw. apply elem_of_app in Hd as [Hd|Hd].
  - right. eapply StronglySorted_app_1_elem_of; [done..|]. by left.
  - apply elem_of_cons in Hd as [->|Hd]; [by left|].
    rewrite Forall_forall in Hl2. by destruct (Hl2 d Hd).
Qed.

(** ** [_gen_grid] *)

(** The fuel matters to [_gen_grid] through the generator only. *)
Lemma gen_grid_fuel draws fuel1 fuel2 width height E :
  __init__ draws fuel1 (width - 2) (height - 2) =
    __init__ draws fuel2 (width - 2) (height - 2) →
  _gen_grid draws fuel1 width height E = _gen_grid draws fuel2 width height E.
Proof.
  intros Heq. unfold _gen_grid, bind_env, Maze_Generator_. simpl. by rewrite Heq.
Qed.

(** Once the generator has returned the lattice [W], [_gen_grid] scans
    it row by row and then puts the goal, places the agent and sets the
    mission. *)
Lemma gen_grid_scan draws fuel width height E W :
  __init__ draws fuel (width - 2) (height - 2) = Ret W →
  _gen_grid draws fuel width height E =
    bind_env (for_ (cells (height - 2) (width - 2)) (scan W) (0, 0))
      (λ last_pos,
         host (put_obj Goal last_pos.1 last_pos.2) ;+
         let+ start := get_agent_start_pos in
         match start with
         | Some p => set_agent p
         | None => host place_agent
         end ;+
         set_mission "get to the green goal square")
      (called [Grid width height; wall_rect 0 0 width height] E).
Proof.
  intros Hinit. unfold _gen_grid.
  unfold bind_env at 1. cbn [host]. unfold bind_env at 1. cbn [host].
  rewrite called_app. cbn [app].
  unfold bind_env at 1, Maze_Generator_. rewrite Hinit.
  unfold cells, range. symmetry. unfold bind_env at 1.
  by rewrite <- (for_nested (seqZ 0 (height - 2)) (seqZ 0 (width - 2)) (scan W)).
Qed.

(** On a square arena the scan stays inside the lattice, so [_gen_grid]
    returns. *)
Lemma gen_grid_square_run draws fuel n E W :
  wf n n W → __init__ draws fuel n n = Ret W →
  ∃ E', _gen_grid draws fuel (n + 2) (n + 2) E = (Ret (), E') ∧
        calls E' =
          calls E ++ [Grid (n + 2) (n + 2); wall_rect 0 0 (n + 2) (n + 2)] ++
          ((λ c, put_obj Wall (tile c).1 (tile c).2) <$> walls W) ++
          [put_obj Goal (last_wall W (cells n n) (0, 0)).1
                        (last_wall W (cells n n) (0, 0)).2] ++
          (if agent_start_pos E is Some _ then [] else [place_agent]) ∧
        mission E' = "get to the green goal square" ∧
        agent_start_pos E' = agent_start_pos E ∧
        agent_start_dir E' = agent_start_dir E ∧
        (∀ p, agent_start_pos E = Some p →
           agent_pos E' = Some p ∧ agent_dir E' = agent_start_dir E).
Proof.
  intros Hwf Hinit.
  assert (n + 2 - 2 = n) as Hn by lia.
  rewrite (gen_grid_scan draws fuel (n + 2) (n + 2) E W) by (by rewrite Hn).
  rewrite Hn. unfold bind_env at 1.
  rewrite (scan_returns n n) by (done || (apply Forall_forall; intros c; apply elem_of_cells)).
  unfold walls. destruct Hwf as (-> & Hh & _). rewrite Hh.
  unfold bind_env, host, get_agent_start_pos, set_agent, set_mission. simpl.
  destruct (agent_start_pos E) as [p|] eqn:Hp; simpl; rewrite ?Hp.
  - eexists. split; [reflexivity|]. simpl.
    split_and!; [|done..|by intros ? [= <-]].
    rewrite <- !app_assoc. done.
  - eexists. split; [reflexivity|]. simpl.
    split_and!; [|done..].
    rewrite <- !app_assoc. done.
Qed.

Lemma elem_of_walls w h W c : wf w h W → c ∈ walls W ↔ inb w h c ∧ ¬ passage W c.
Proof.
  intros Hwf. pose proof Hwf as (Hw & Hh & _). unfold walls.
  rewrite list_elem_of_filter, Hw, Hh, elem_of_cells.
  rewrite (wall_cell w h), (passage_cell w h) by done.
  destruct (cell W c); naive_solver.
Qed.

(** X6.  On a square arena of side [n + 2], [n] at least 1, whatever the
    draws and the environment it starts from, [_gen_grid] returns.  It has
    then made these calls and no other, in this order: the grid, the wall
    around it, a wall on the tile [(x + 1, y + 1)] for each cell [(x, y)]
    of the generated lattice that is no passage, row by row, the goal, and
    [place_agent] when the environment has no start for the agent; with a
    start, that is where the agent is.  So every wall is put inside the
    border, the tile [(1, 1)] of the origin gets none, and every tile
    inside the border without a wall is joined to it by such tiles that
    share a side.  For [n = 1] no wall is put and the goal goes to the
    tile [(0, 0)], a corner of the border. *)
Theorem gen_grid_square draws n E :
  1 ≤ n →
  ∃ W E',
    (∀ fuel, (Z.to_nat (n * n) ≤ fuel)%nat →
       __init__ draws fuel n n = Ret W ∧
       _gen_grid draws fuel (n + 2) (n + 2) E = (Ret (), E')) ∧
    calls E' =
      calls E ++ [Grid (n + 2) (n + 2); wall_rect 0 0 (n + 2) (n + 2)] ++
      ((λ c, put_obj Wall (tile c).1 (tile c).2) <$> walls W) ++
      [put_obj Goal (last_wall W (cells n n) (0, 0)).1
                    (last_wall W (cells n n) (0, 0)).2] ++
      (if agent_start_pos E is Some _ then [] else [place_agent]) ∧
    (∀ c, c ∈ walls W ↔ inb n n c ∧ ¬ passage W c) ∧
    (∀ c, c ∈ walls W → 1 ≤ (tile c).1 ≤ n ∧ 1 ≤ (tile c).2 ≤ n) ∧
    ((0, 0) ∉ walls W) ∧
    (∀ c, inb n n c → c ∉ walls W → rtc (step4 W) (0, 0) c) ∧
    (n = 1 → walls W = [] ∧ last_wall W (cells n n) (0, 0) = (0, 0)) ∧
    mission E' = "get to the green goal square" ∧
    (∀ p, agent_start_pos E = Some p →
       agent_pos E' = Some p ∧ agent_dir E' = agent_start_dir E).
Proof.
  intros Hn. destruct (init_returns draws n n Hn Hn) as (W & HI & Hret).
  pose proof (inv_wf HI) as Hwf.
  destruct (gen_grid_square_run draws _ n E W Hwf (Hret _ (le_n _)))
    as (E' & Hrun & Hcalls & Hmission & _ & _ & Hagent).
  exists W, E'. split_and!; [|done|..|done|done].
  - intros fuel Hfuel. split; [by apply Hret|].
    rewrite <- Hrun. apply gen_grid_fuel.
    assert (n + 2 - 2 = n) as -> by lia.
    by rewrite !Hret by (done || lia).
  - intros c. by apply elem_of_walls.
  - intros c [Hc _]%(elem_of_walls n n); [|done].
    unfold inb, tile in *; simpl. lia.
  - intros [_ H0]%(elem_of_walls n n); [|done].
    apply H0. by apply (Inv_passage_origin n n Hn Hn ∅ W).
  - intros c Hc Hnw. apply (Inv_path4 n n ∅); [done|].
    destruct (decide (passage W c)) as [|Hnp]; [done|].
    destruct Hnw. by apply (elem_of_walls n n).
  - intros ->.
    assert (walls W = []) as Hnil.
    { apply elem_of_nil_inv. intros c Hc.
      pose proof Hc as [Hin Hnp]%(elem_of_walls 1 1); [|done].
      apply Hnp. replace c with ((0, 0) : coord).
      - by apply (Inv_passage_origin 1 1 Hn Hn ∅ W).
      - destruct c as [x y]. unfold inb in Hin; simpl in Hin. f_equal; lia. }
    split; [done|]. revert Hnil. unfold walls, last_wall.
    destruct Hwf as (-> & -> & _). by intros ->.
Qed.

Lemma gen_grid_square_witness :
  ∃ W E',
    (∀ fuel, (Z.to_nat (3 * 3) ≤ fuel)%nat →
       __init__ (λ k, k) fuel 3 3 = Ret W ∧
       _gen_grid (λ k, k) fuel (3 + 2) (3 + 2) env_default = (Ret (), E')) ∧
    calls E' =
      calls env_default ++ [Grid (3 + 2) (3 + 2); wall_rect 0 0 (3 + 2) (3 + 2)] ++
      ((λ c, put_obj Wall (tile c).1 (tile c).2) <$> walls W) ++
      [put_obj Goal (last_wall W (cells 3 3) (0, 0)).1
                    (last_wall W (cells 3 3) (0, 0)).2] ++
      (if agent_start_pos env_default is Some _ then [] else [place_agent]) ∧
    (∀ c, c ∈ walls W ↔ inb 3 3 c ∧ ¬ passage W c) ∧
    (∀ c, c ∈ walls W → 1 ≤ (tile c).1 ≤ 3 ∧ 1 ≤ (tile c).2 ≤ 3) ∧
    ((0, 0) ∉ walls W) ∧
    (∀ c, inb 3 3 c → c ∉ walls W → rtc (step4 W) (0, 0) c) ∧
    (3 = 1 → walls W = [] ∧ last_wall W (cells 3 3) (0, 0) = (0, 0)) ∧
    mission E' = "get to the green goal square" ∧
    (∀ p, agent_start_pos env_default = Some p →
       agent_pos E' = Some p ∧ agent_dir E' = agent_start_dir env_default).
Proof. apply (gen_grid_square (λ k, k) 3 env_default); lia. Defined.

(** X7.  Where the goal goes.  On a square arena of side [n + 2], [n] at
    least 2, whatever the draws, [_gen_grid] puts exactly one goal, after
    every wall, on the tile [(j, i)], where [(i, j)] is the wall of the
    lattice that the scan meets last: the coordinates are swapped and not
    shifted by the border.  That tile lies inside the border, at most
    [n - 1] along both axes, so for [n = 2] it is the tile [(1, 1)] on
    which the agent starts by default.  It is the tile of a passage of the
    lattice with both coordinates even, or shares a side with such a tile,
    and that passage is joined to the origin by passages that share a
    side. *)
Theorem gen_grid_goal draws n E :
  2 ≤ n →
  ∃ W E' i j d,
    (∀ fuel, (Z.to_nat (n * n) ≤ fuel)%nat →
       __init__ draws fuel n n = Ret W ∧
       _gen_grid draws fuel (n + 2) (n + 2) E = (Ret (), E')) ∧
    (∃ cs, calls E' =
             calls E ++ cs ++ [put_obj Goal j i] ++
             (if agent_start_pos E is Some _ then [] else [place_agent]) ∧
           ∀ x y, put_obj Goal x y ∉ cs) ∧
    wall W (i, j) ∧ (∀ c, wall W c → c = (i, j) ∨ lex c (i, j)) ∧
    1 ≤ i ≤ n - 1 ∧ 1 ≤ j ≤ n - 1 ∧
    (n = 2 → (j, i) = (1, 1)) ∧
    passage W d ∧ even2 d ∧ rtc (step4 W) (0, 0) d ∧
    Z.abs ((tile d).1 - j) + Z.abs ((tile d).2 - i) ≤ 1.
Proof.
  intros Hn. assert (1 ≤ n) as Hn1 by lia.
  destruct (init_returns draws n n Hn1 Hn1) as (W & HI & Hret).
  pose proof (init_Inv2 draws n n Hn1 Hn1 _ W (Hret _ (le_n _))) as HI2.
  pose proof (inv_wf HI) as Hwf.
  destruct (gen_grid_square_run draws _ n E W Hwf (Hret _ (le_n _)))
    as (E' & Hrun & Hcalls & _).
  assert (∀ c, inb n n c → odd2 c → wall W c) as Hodd.
  { intros c Hc Ho. apply (wall_cell n n); [done|]. split; [done|]. by apply (inv_odd HI). }
  assert (∀ c, inb n n c → even2 c → ¬ wall W c) as Heven.
  { intros c Hc He [_ Hw]%(wall_cell n n); [|done].
    rewrite (complete_evens n n Hn1 Hn1 W c) in Hw by done. done. }
  assert (wall W (1, 1)) as H11.
  { apply Hodd; [unfold inb; simpl; lia|done]. }
  destruct (last (filter (wall W) (cells n n))) as [[i j]|] eqn:Hlast; cycle 1.
  { apply last_None in Hlast.
    assert ((1, 1) ∈ filter (wall W) (cells n n)) as Hin.
    { apply list_elem_of_filter. split; [done|]. apply elem_of_cells. unfold inb; simpl; lia. }
    rewrite Hlast in Hin. by apply elem_of_nil in Hin. }
  destruct (last_wall_max W _ _ (cells_sorted n n) Hlast) as (Hc%elem_of_cells & Hw & Hmax).
  assert (∀ c, wall W c → c = (i, j) ∨ lex c (i, j)) as Hmax'.
  { intros c Hcw. apply Hmax; [|done]. apply elem_of_cells.
    by apply (wall_cell n n) in Hcw as [? _]. }
  assert (1 ≤ i) as Hi.
  { destruct (Hmax' _ H11) as [[= <- <-]|Hlex]; [lia|]. unfold lex in Hlex; simpl in Hlex. lia. }
  assert (1 ≤ j) as Hj.
  { destruct (decide (1 ≤ j)) as [|Hj0]; [done|].
    assert (j = 0) as -> by (unfold inb in Hc; simpl in Hc; lia).
    destruct (decide (i `mod` 2 = 0)) as [Hie|Hio].
    - destruct (Heven (i, 0)); [done|by split|done].
    - assert (wall W (i, 1)) as Hi1.
      { apply Hodd; [unfold inb in *; simpl in *; lia|]. split; simpl; [zlia|done]. }
      destruct (Hmax' _ Hi1) as [[=]|Hlex]. unfold lex in Hlex; simpl in Hlex. lia. }
  assert (¬ even2 (i, j)) as Hne by (intros He; by destruct (Heven (i, j))).
  set (d := (2 * (j `div` 2), 2 * (i `div` 2))).
  assert (inb n n d) as Hd by (unfold inb, d in *; simpl in *; zlia).
  assert (even2 d) as Hde by (unfold even2, d; simpl; zlia).
  assert (passage W d) as Hdp.
  { apply (passage_cell n n); [done|]. split; [done|]. by apply (complete_evens n n). }
  exists W, E', i, j, d. split_and!; try done.
  - intros fuel Hfuel. split; [by apply Hret|].
    rewrite <- Hrun. apply gen_grid_fuel.
    assert (n + 2 - 2 = n) as -> by lia.
    by rewrite !Hret by (done || lia).
  - exists ([Grid (n + 2) (n + 2); wall_rect 0 0 (n + 2) (n + 2)] ++
            ((λ c, put_obj Wall (tile c).1 (tile c).2) <$> walls W)).
    split.
    + rewrite Hcalls. unfold last_wall. by rewrite Hlast.
    + intros x y [Hin|Hin]%elem_of_app.
      * apply elem_of_cons in Hin as [|Hin]; [done|].
        apply elem_of_cons in Hin as [|Hin]; [done|]. by apply elem_of_nil in Hin.
      * by apply list_elem_of_fmap in Hin as (c & [=] & _).
  - unfold inb in Hc; simpl in Hc; lia.
  - unfold inb in Hc; simpl in Hc; lia.
  - intros ->. unfold inb in Hc; simpl in Hc. f_equal; lia.
  - by apply (Inv_path4 n n ∅).
  - unfold even2 in Hne. unfold tile, d; simpl in *. zlia.
Qed.

Lemma gen_grid_goal_witness :
  ∃ W E' i j d,
    (∀ fuel, (Z.to_nat (4 * 4) ≤ fuel)%nat →
       __init__ (λ k, k) fuel 4 4 = Ret W ∧
       _gen_grid (λ k, k) fuel (4 + 2) (4 + 2) env_random_start = (Ret (), E')) ∧
    (∃ cs, calls E' =
             calls env_random_start ++ cs ++ [put_obj Goal j i] ++
             (if agent_start_pos env_random_start is Some _ then [] else [place_agent]) ∧
           ∀ x y, put_obj Goal x y ∉ cs) ∧
    wall W (i, j) ∧ (∀ c, wall W c → c = (i, j) ∨ lex c (i, j)) ∧
    1 ≤ i ≤ 4 - 1 ∧ 1 ≤ j ≤ 4 - 1 ∧
    (4 = 2 → (j, i) = (1, 1)) ∧
    passage W d ∧ even2 d ∧ rtc (step4 W) (0, 0) d ∧
    Z.abs ((tile d).1 - j) + Z.abs ((tile d).2 - i) ≤ 1.
Proof. apply (gen_grid_goal (λ k, k) 4 env_random_start); lia. Defined.

(** X8.  [_gen_grid] is for square arenas only.  With a width and a height
    of at least 3 that differ, whatever the draws, it raises [IndexError]:
    the lattice is built [width - 2] by [height - 2] and read
    [height - 2] by [width - 2], so the scan leaves it.  By then the grid
    and the wall around it have been made and nothing but walls put; no
    goal was put, the agent was not placed and the mission was not set. *)
Theorem gen_grid_oblong draws width height E :
  3 ≤ width → 3 ≤ height → width ≠ height →
  ∃ cs,
    (∀ fuel, (Z.to_nat ((width - 2) * (height - 2)) ≤ fuel)%nat →
       _gen_grid draws fuel width height E =
         (Raise IndexError,
          called ([Grid width height; wall_rect 0 0 width height] ++ cs) E)) ∧
    Forall (λ c, ∃ i j, c = put_obj Wall i j) cs.
Proof.
  intros Hw Hh Hne.
  assert (1 ≤ width - 2) as Hw1 by lia. assert (1 ≤ height - 2) as Hh1 by lia.
  destruct (init_returns draws _ _ Hw1 Hh1) as (W & HI & Hret).
  pose proof (inv_wf HI) as Hwf.
  destruct (scan_raises (width - 2) (height - 2) W (cells (height - 2) (width - 2)) (0, 0)
              (called [Grid width height; wall_rect 0 0 width height] E) Hwf)
    as (cs & Hscan & Hcs); [lia..| | |].
  { apply Forall_forall. intros c Hc%elem_of_cells. unfold inb in Hc. lia. }
  { apply Exists_exists. destruct (decide (width < height)).
    - exists (width - 2, 0). rewrite elem_of_cells. unfold inb; simpl. lia.
    - exists (0, height - 2). rewrite elem_of_cells. unfold inb; simpl. lia. }
  exists cs. split; [|done].
  intros fuel Hfuel.
  rewrite (gen_grid_scan draws fuel width height E W) by (by apply Hret).
  unfold bind_env. rewrite Hscan. by rewrite called_app.
Qed.

Lemma gen_grid_oblong_witness :
  ∃ cs,
    (∀ fuel, (Z.to_nat ((5 - 2) * (4 - 2)) ≤ fuel)%nat →
       _gen_grid (λ k, k) fuel 5 4 env_default =
         (Raise IndexError,
          called ([Grid 5 4; wall_rect 0 0 5 4] ++ cs) env_default)) ∧
    Forall (λ c, ∃ i j, c = put_obj Wall i j) cs.
Proof. apply (gen_grid_oblong (λ k, k) 5 4 env_default); lia. Defined.
